(** * Timing-attack demonstration: a shallow embedding of
      [timing_attack_demo.py] and the properties of its comparators,
      sampler, attempt generator, experiment runner and analyzer.

    Python values are modelled as follows.
    - [int] is [Z] (unbounded, as in Python).
    - [str] is a list of characters; a character is its Unicode code point,
      so [ord] is the injection into [Z].
    - [float] is the exact rational it denotes ([Q]); the rounding of float
      arithmetic is not modelled, and the float square root is a parameter
      of the statistics section.
    - A raised exception is the [Raise] outcome; the random module is a tape
      of draws, and [Pending] is the outcome of a run that asks for a draw
      after the tape is used up (the run is still inside a resampling loop).
    - [time.perf_counter_ns] reads the next value of a clock that is part of
      the world. *)

From Stdlib Require Import String Ascii.
From Stdlib Require Import List ZArith NArith QArith Qabs Bool Lia.
Import ListNotations.

Local Open Scope Z_scope.

(** ** Outcomes of Python computations *)

Inductive exn : Type :=
| IndexError
| KeyError
| ValueError
| StatisticsError
| ZeroDivisionError.

Inductive result (A : Type) : Type :=
| Ok (a : A)
| Raise (e : exn)
| Pending.

Arguments Ok {A} a.
Arguments Raise {A} e.
Arguments Pending {A}.

Definition bind {A B : Type} (r : result A) (k : A -> result B) : result B :=
  match r with
  | Ok a => k a
  | Raise e => Raise e
  | Pending => Pending
  end.

Notation "x <- e ;; k" := (bind e (fun x => k))
  (at level 61, e at next level, right associativity).
Notation "' p <- e ;; k" := (bind e (fun p => k))
  (at level 61, p pattern, e at next level, right associativity).

(** ** The Python built-ins the program uses *)

Module Py.

(** A character is its code point. *)
Definition char : Type := N.
Definition str : Type := list char.

Definition ord (c : char) : Z := Z.of_N c.

Definition of_string (s : string) : str :=
  map N_of_ascii (list_ascii_of_string s).

Definition len {A : Type} (s : list A) : Z := Z.of_nat (length s).

(** [s[i]]: a negative index counts from the end; out of range raises. *)
Definition getitem {A : Type} (s : list A) (i : Z) : result A :=
  let j := if i <? 0 then len s + i else i in
  if j <? 0 then Raise IndexError
  else match nth_error s (Z.to_nat j) with
       | Some a => Ok a
       | None => Raise IndexError
       end.

(** [s[:k]]: a negative bound counts from the end. *)
Definition slice_to {A : Type} (s : list A) (k : Z) : list A :=
  let j := if k <? 0 then len s + k else k in
  firstn (Z.to_nat j) s.

(** [range(a, b)] and [range(b)]. *)
Definition range2 (a b : Z) : list Z :=
  map (fun k => a + Z.of_nat k) (seq 0 (Z.to_nat (b - a))).

Definition range (b : Z) : list Z := range2 0 b.

(** [s.ljust(width, fillchar)]: [s] itself when it is already that wide. *)
Definition ljust (s : str) (width : Z) (fillchar : char) : str :=
  s ++ repeat fillchar (Z.to_nat (width - len s)).

End Py.

Import Py.

(** ** The comparator: class [PasswordChecker] *)

Record PasswordChecker : Type := { correct_password : str }.

(** The loop of [vulnerable_check], over the indices still to visit. *)
Fixpoint vulnerable_loop (self : PasswordChecker) (input_password : str)
    (idx : list Z) : result bool :=
  match idx with
  | [] => Ok true
  | i :: rest =>
      a <- getitem input_password i ;;
      b <- getitem (correct_password self) i ;;
      if negb (N.eqb a b) then Ok false
      else vulnerable_loop self input_password rest
  end.

Definition vulnerable_check (self : PasswordChecker) (input_password : str)
    : result bool :=
  if negb (len input_password =? len (correct_password self)) then Ok false
  else vulnerable_loop self input_password (range (len (correct_password self))).

(** The loop of [secure_check]; [acc] is the variable [result]. *)
Fixpoint secure_loop (self : PasswordChecker) (input_password : str)
    (idx : list Z) (acc : Z) : result Z :=
  match idx with
  | [] => Ok acc
  | i :: rest =>
      a <- getitem input_password i ;;
      b <- getitem (correct_password self) i ;;
      secure_loop self input_password rest (Z.lor acc (Z.lxor (ord a) (ord b)))
  end.

Definition NUL : char := 0%N.

Definition secure_check (self : PasswordChecker) (input_password : str)
    : result bool :=
  let input_password :=
    if negb (len input_password =? len (correct_password self))
    then ljust input_password (len (correct_password self)) NUL
    else input_password in
  acc <- secure_loop self input_password
           (range (len (correct_password self))) 0 ;;
  Ok (acc =? 0).

(** ** The [statistics] and [random] modules, as far as the program uses them *)

Definition Qlt_bool (a b : Q) : bool := negb (Qle_bool b a).

(** [a / b] on numbers. *)
Definition truediv (a b : Q) : result Q :=
  if Qeq_bool b 0 then Raise ZeroDivisionError else Ok (a / b)%Q.

(** An exact sum, kept in lowest terms. *)
Definition fsum (xs : list Q) : Q :=
  fold_left (fun a x => Qred (a + x)) xs 0%Q.

Definition py_max (xs : list Q) : result Q :=
  match xs with
  | [] => Raise ValueError
  | x :: rest => Ok (fold_left (fun m y => if Qlt_bool m y then y else m) rest x)
  end.

Definition py_min (xs : list Q) : result Q :=
  match xs with
  | [] => Raise ValueError
  | x :: rest => Ok (fold_left (fun m y => if Qlt_bool y m then y else m) rest x)
  end.

Section Statistics.

(** The float square root; its rounding is left open. *)
Variable fsqrt : Q -> Q.

(** [statistics.mean]: at least one data point. *)
Definition mean (data : list Q) : result Q :=
  if len data <? 1 then Raise StatisticsError
  else Ok (Qred (fsum data / inject_Z (len data))).

(** The sum of the squared deviations from the mean. *)
Definition sum_sq (data : list Q) (xbar : Q) : Q :=
  fsum (map (fun x => (x - xbar) * (x - xbar))%Q data).

(** [statistics.stdev]: at least two data points. *)
Definition stdev (data : list Q) : result Q :=
  if len data <? 2 then Raise StatisticsError
  else
    let xbar := (fsum data / inject_Z (len data))%Q in
    Ok (fsqrt (Qred (sum_sq data xbar / inject_Z (len data - 1)))).

(** [statistics.correlation]: Pearson's coefficient; the inputs have the
    same length, at least two points, and neither is constant. *)
Definition correlation (x y : list Q) : result Q :=
  let n := len x in
  if negb (len y =? n) then Raise StatisticsError
  else if n <? 2 then Raise StatisticsError
  else
    let xbar := (fsum x / inject_Z n)%Q in
    let ybar := (fsum y / inject_Z n)%Q in
    let sxy := fsum (map (fun p => (fst p - xbar) * (snd p - ybar))%Q
                         (combine x y)) in
    let sxx := sum_sq x xbar in
    let syy := sum_sq y ybar in
    match truediv sxy (fsqrt (sxx * syy)) with
    | Raise ZeroDivisionError => Raise StatisticsError
    | r => r
    end.

End Statistics.

(** The random module: a tape of draws.  A draw [r] selects the element of
    index [r mod len(seq)]. *)
Definition tape : Type := list nat.

(** The element of [seq] that the draw [r] selects. *)
Definition pick {A : Type} (seq : list A) (r : nat) : result A :=
  getitem seq (Z.of_nat r mod len seq).

(** [random.choice(seq)]. *)
Definition choice {A : Type} (seq : list A) (t : tape) : result (A * tape) :=
  if len seq =? 0 then Raise IndexError
  else match t with
       | [] => Pending
       | r :: t' => a <- pick seq r ;; Ok (a, t')
       end.

(** [random.choices(population, k=k)], [k] draws; none when [k <= 0]. *)
Fixpoint choices_loop {A : Type} (population : list A) (k : nat) (t : tape)
    : result (list A * tape) :=
  match k with
  | O => Ok ([], t)
  | S k' =>
      '(a, t) <- choice population t ;;
      '(rest, t) <- choices_loop population k' t ;;
      Ok (a :: rest, t)
  end.

Definition choices {A : Type} (population : list A) (k : Z) (t : tape)
    : result (list A * tape) :=
  choices_loop population (Z.to_nat k) t.

(** [string.ascii_letters + string.digits]. *)
Definition chars : str :=
  of_string "abcdefghijklmnopqrstuvwxyzABCDEFGHIJKLMNOPQRSTUVWXYZ0123456789".

(** ** The attempt generator *)

(** [while random_char == correct_password[i]: random_char = random.choice(chars)];
    the condition reads [correct_password[i]] at every turn, and the body is
    [random.choice] on the next draw ([chars] is not empty). *)
Fixpoint resample (correct_password : str) (i : Z) (random_char : char)
    (t : tape) : result (char * tape) :=
  c <- getitem correct_password i ;;
  if N.eqb random_char c then
    match t with
    | [] => Pending
    | r :: t' =>
        random_char <- pick chars r ;;
        resample correct_password i random_char t'
    end
  else Ok (random_char, t).

(** The [for i in range(num_correct_chars, len(correct_password))] loop. *)
Fixpoint fill (correct_password : str) (idx : list Z) (attempt : str)
    (t : tape) : result (str * tape) :=
  match idx with
  | [] => Ok (attempt, t)
  | i :: rest =>
      '(random_char, t) <- choice chars t ;;
      '(random_char, t) <- resample correct_password i random_char t ;;
      fill correct_password rest (attempt ++ [random_char]) t
  end.

Definition generate_password_attempts (correct_password : str)
    (num_correct_chars : Z) (t : tape) : result (str * tape) :=
  if num_correct_chars >=? len correct_password then Ok (correct_password, t)
  else
    fill correct_password
      (range2 num_correct_chars (len correct_password))
      (slice_to correct_password num_correct_chars) t.

(** ** The world: the clock, the random tape, and the record of the
       candidates handed to the sampler *)

Inductive strategy : Type := Vulnerable | Secure.

Record world : Type := {
  clock : nat -> Z;          (* the reading of the k-th clock query *)
  ticks : nat;               (* clock queries made so far *)
  draws : tape;              (* random draws not yet used *)
  sampled : list (strategy * Z * str)
                             (* strategy, match length, candidate sampled *)
}.

Definition M (A : Type) : Type := world -> result (A * world).

Definition ret {A : Type} (a : A) : M A := fun w => Ok (a, w).

Definition mbind {A B : Type} (m : M A) (k : A -> M B) : M B :=
  fun w => '(a, w') <- m w ;; k a w'.

Notation "x <-- e ;; k" := (mbind e (fun x => k))
  (at level 61, e at next level, right associativity).
Notation "' p <-- e ;; k" := (mbind e (fun p => k))
  (at level 61, p pattern, e at next level, right associativity).

Definition lift {A : Type} (r : result A) : M A :=
  fun w => a <- r ;; Ok (a, w).

(** [time.perf_counter_ns()]. *)
Definition perf_counter_ns : M Z :=
  fun w => Ok (clock w (ticks w),
               {| clock := clock w; ticks := S (ticks w);
                  draws := draws w; sampled := sampled w |}).

(** A computation that uses the random module only. *)
Definition with_random {A : Type} (f : tape -> result (A * tape)) : M A :=
  fun w => '(a, t) <- f (draws w) ;;
           Ok (a, {| clock := clock w; ticks := ticks w;
                     draws := t; sampled := sampled w |}).

(** Records the candidate about to be sampled (no counterpart in the source:
    it makes the argument of the sampler observable). *)
Definition note (s : strategy) (num_correct : Z) (attempt : str) : M unit :=
  fun w => Ok (tt, {| clock := clock w; ticks := ticks w; draws := draws w;
                      sampled := sampled w ++ [(s, num_correct, attempt)] |}).

(** ** The sampler *)

(** The [for _ in range(iterations)] loop of [measure_execution_time]. *)
Fixpoint sample_loop {A : Type} (func : str -> result A) (arg : str)
    (idx : list Z) (times : list Z) : M (list Z) :=
  match idx with
  | [] => ret times
  | _ :: rest =>
      start <-- perf_counter_ns ;;
      _ <-- lift (func arg) ;;
      finish <-- perf_counter_ns ;;
      sample_loop func arg rest (times ++ [finish - start])
  end.

Definition measure_execution_time {A : Type} (func : str -> result A)
    (arg : str) (iterations : Z) : M (Q * list Z) :=
  times <-- sample_loop func arg (range iterations) [] ;;
  avg_time <-- lift (mean (map inject_Z times)) ;;
  ret (avg_time, times).

(** ** The experiment runner *)

Record entry : Type := {
  avg_time : Q;
  std_dev : Q;
  all_times : list Z
}.

(** A Python [dict] with integer keys, in insertion order. *)
Definition dict (V : Type) : Type := list (Z * V).

Fixpoint dict_set {V : Type} (d : dict V) (k : Z) (v : V) : dict V :=
  match d with
  | [] => [(k, v)]
  | (k', v') :: rest =>
      if k' =? k then (k, v) :: rest else (k', v') :: dict_set rest k v
  end.

Fixpoint dict_get {V : Type} (d : dict V) (k : Z) : result V :=
  match d with
  | [] => Raise KeyError
  | (k', v') :: rest => if k' =? k then Ok v' else dict_get rest k
  end.

Definition keys {V : Type} (d : dict V) : list Z := map fst d.

Record results : Type := {
  vulnerable : dict entry;
  secure : dict entry;
  password_length : Z
}.

Definition method (s : strategy) : PasswordChecker -> str -> result bool :=
  match s with
  | Vulnerable => vulnerable_check
  | Secure => secure_check
  end.

Section Runner.

Variable fsqrt : Q -> Q.

(** One [for num_correct in range(password_length + 1)] loop of
    [timing_attack_simulation]; the source has two, which differ in the
    method sampled and in the dictionary filled. *)
Fixpoint sweep (checker : PasswordChecker) (s : strategy)
    (idx : list Z) (d : dict entry) : M (dict entry) :=
  match idx with
  | [] => ret d
  | num_correct :: rest =>
      attempt <-- with_random
        (generate_password_attempts (correct_password checker) num_correct) ;;
      _ <-- note s num_correct attempt ;;
      '(avg, times) <-- measure_execution_time (method s checker) attempt 1000 ;;
      sd <-- lift (stdev fsqrt (map inject_Z times)) ;;
      sweep checker s rest
        (dict_set d num_correct
           {| avg_time := avg; std_dev := sd; all_times := times |})
  end.

Definition timing_attack_simulation (password_length : Z)
    : M (results * str) :=
  pwd <-- with_random (choices chars password_length) ;;
  let checker := {| correct_password := pwd |} in
  vuln <-- sweep checker Vulnerable (range (password_length + 1)) [] ;;
  sec <-- sweep checker Secure (range (password_length + 1)) [] ;;
  ret ({| vulnerable := vuln; secure := sec;
          password_length := password_length |}, pwd).

End Runner.

(** ** The analyzer *)

Fixpoint insert_sorted (k : Z) (l : list Z) : list Z :=
  match l with
  | [] => [k]
  | x :: rest => if k <=? x then k :: l else x :: insert_sorted k rest
  end.

(** [sorted(...)] on integer keys. *)
Definition sorted (l : list Z) : list Z := fold_right insert_sorted [] l.

(** [[d[i]['avg_time'] for i in ks]] *)
Fixpoint avg_times (d : dict entry) (ks : list Z) : result (list Q) :=
  match ks with
  | [] => Ok []
  | i :: rest =>
      e <- dict_get d i ;;
      r <- avg_times d rest ;;
      Ok (avg_time e :: r)
  end.

(** The float literals [0.8] and [0.3]: the doubles nearest to them. *)
Definition float_0_8 : Q := 3602879701896397 # 4503599627370496.
Definition float_0_3 : Q := 5404319552844595 # 18014398509481984.

(** The verdict printed for the early-exit strategy (line 238). *)
Definition vulnerable_verdict (correlation : Q) : string :=
  if Qlt_bool float_0_8 correlation then "VULNERABLE"%string
  else "POSSIBLY VULNERABLE"%string.

(** The verdict printed for the constant-time strategy (line 257). *)
Definition secure_verdict (secure_correlation : Q) : string :=
  if Qlt_bool (Qabs secure_correlation) float_0_3 then "SECURE"%string
  else "POSSIBLY VULNERABLE"%string.

Record analysis : Type := {
  vulnerable_correlation : Q;
  secure_correlation : Q;
  time_increase_percentage : Q;
  secure_variance_percentage : Q
}.

Section Analyzer.

Variable fsqrt : Q -> Q.

(** [statistics.correlation(list(range(len(ts))), ts) if len(ts) > 1 else 0] *)
Definition guarded_correlation (ts : list Q) : result Q :=
  if len ts >? 1
  then correlation fsqrt (map inject_Z (range (len ts))) ts
  else Ok 0%Q.

(** [analyze_results]: the value returned, with the two verdict lines it
    prints.  The expressions inside the printed lines are evaluated in
    source order, since they can raise. *)
Definition analyze_results (r : results) : result (list string * analysis) :=
  vuln_times <- avg_times (vulnerable r) (sorted (keys (vulnerable r))) ;;
  slowest <- getitem vuln_times (-1) ;;
  fastest <- getitem vuln_times 0 ;;
  let time_increase := (slowest - fastest)%Q in
  corr <- guarded_correlation vuln_times ;;
  (* lines 234-238 *)
  _ <- getitem vuln_times 0 ;;
  _ <- getitem vuln_times (-1) ;;
  base <- getitem vuln_times 0 ;;
  _ <- truediv time_increase base ;;
  let verdict1 := vulnerable_verdict corr in
  secure_times <- avg_times (secure r) (sorted (keys (secure r))) ;;
  hi <- py_max secure_times ;;
  lo <- py_min secure_times ;;
  let time_variance := (hi - lo)%Q in
  secure_corr <- guarded_correlation secure_times ;;
  (* lines 253-257 *)
  _ <- py_min secure_times ;;
  _ <- py_max secure_times ;;
  lo' <- py_min secure_times ;;
  _ <- truediv time_variance lo' ;;
  let verdict2 := secure_verdict secure_corr in
  (* lines 261-266 *)
  base <- getitem vuln_times 0 ;;
  q1 <- truediv time_increase base ;;
  lo'' <- py_min secure_times ;;
  q2 <- truediv time_variance lo'' ;;
  Ok ([verdict1; verdict2],
      {| vulnerable_correlation := corr;
         secure_correlation := secure_corr;
         time_increase_percentage := (q1 * 100)%Q;
         secure_variance_percentage := (q2 * 100)%Q |}).

End Analyzer.

(** ** Vocabulary of the statements *)

(** The candidate as [secure_check] compares it: padded with NUL up to the
    secret's length and read up to that length. *)
Definition compared (S0 C : str) : str :=
  firstn (length S0) (ljust C (len S0) NUL).

(** Two draws that select the same character of [chars]. *)
Definition same_pick (r1 r2 : nat) : bool :=
  Z.of_nat r1 mod len chars =? Z.of_nat r2 mod len chars.

(** A tape on which no draw selects the same character as the draw before
    it.  On such a tape a resampling loop ends after one more draw. *)
Fixpoint stutter_free (t : tape) : bool :=
  match t with
  | r1 :: ((r2 :: _) as t') => negb (same_pick r1 r2) && stutter_free t'
  | _ => true
  end.

(** [c] has the length of [S0], agrees with it on the first [L] positions
    and differs from it on every later position. *)
Definition matches_exactly (S0 : str) (L : nat) (c : str) : Prop :=
  length c = length S0
  /\ firstn L c = firstn L S0
  /\ forall i, (L <= i < length S0)%nat -> nth_error c i <> nth_error S0 i.

(** What the generator promises of the candidate [a] for the match length
    [l]: the exact match, and the secret itself at full length. *)
Definition attempt_ok (S0 : str) (l : nat) (a : str) : Prop :=
  matches_exactly S0 l a /\ (l = length S0 -> a = S0).

(** The outcome [r] of a computation started on the tape [t]: it does not
    raise; when it returns, [post] holds and the draws it used are a prefix
    of [t], at most [budget] of them if [t] is stutter free; it is pending
    only if [budget] is positive and [t], if stutter free, is shorter than
    [budget]. *)
Definition runs {A : Type} (r : result (A * tape)) (t : tape) (budget : nat)
    (post : A -> Prop) : Prop :=
  match r with
  | Ok (a, t') =>
      post a /\
      exists used, t = used ++ t' /\
        (stutter_free t = true -> (length used <= budget)%nat)
  | Raise _ => False
  | Pending =>
      (0 < budget)%nat /\
      (stutter_free t = true -> (length t < budget)%nat)
  end.

Fixpoint nodupb (l : list N) : bool :=
  match l with
  | [] => true
  | x :: rest => negb (existsb (N.eqb x) rest) && nodupb rest
  end.

(** The world after [k] more clock queries. *)
Definition tick_world (w : world) (k : nat) : world :=
  {| clock := clock w; ticks := (ticks w + k)%nat;
     draws := draws w; sampled := sampled w |}.

(** The outcome [r] of a computation started in the world [w]; as [runs],
    with the clock left as it was. *)
Definition wruns {A : Type} (r : result (A * world)) (w : world)
    (budget : nat) (post : A -> world -> Prop) : Prop :=
  match r with
  | Ok (a, w') =>
      clock w' = clock w /\ post a w' /\
      exists used, draws w = used ++ draws w' /\
        (stutter_free (draws w) = true -> (length used <= budget)%nat)
  | Raise _ => False
  | Pending =>
      (0 < budget)%nat /\
      (stutter_free (draws w) = true -> (length (draws w) < budget)%nat)
  end.

(** The records that a sweep of strategy [s] leaves for the match lengths
    [ls] and the candidates [attempts]. *)
Definition sweep_log (s : strategy) (ls : list Z) (attempts : list str)
    : list (strategy * Z * str) :=
  map (fun p => (s, fst p, snd p)) (combine ls attempts).

(** A clock that is read twice around a call without advancing. *)
Definition coarse_world : world :=
  {| clock := fun _ => 0; ticks := 0; draws := []; sampled := [] |}.


(** A stand-in for the float square root where a run is evaluated: the
    square root rounded down to a multiple of 2^-53.  No property below
    depends on the choice. *)
Definition sqrt_floor53 (q : Q) : Q :=
  Z.sqrt (Qnum q * 2 ^ 106 / Z.pos (Qden q)) # (2 ^ 53).

(** A world whose three draws select 'a', 'b' and 'c', with a clock that
    advances by one per query. *)
Definition demo_world : world :=
  {| clock := Z.of_nat; ticks := 0; draws := [0; 1; 2]%nat; sampled := [] |}.

(** ** visualization.py: the data read from the results *)

(** [create_overlay_plot], lines 99-102: the match lengths and the two series
    of averages that are plotted.  The averages of the constant-time sweep
    are looked up under the keys of the early-exit sweep. *)
Definition create_overlay_plot_series (r : results)
    : result (list Z * list Q * list Q) :=
  let num_chars := sorted (keys (vulnerable r)) in
  vuln_times <- avg_times (vulnerable r) num_chars ;;
  secure_times <- avg_times (secure r) num_chars ;;
  Ok (num_chars, vuln_times, secure_times).

(** The value kept per match length in [results_serializable]. *)
Record summary : Type := {
  summary_avg_time : Q;
  summary_std_dev : Q
}.

(** [generate_all_visualizations], lines 296-303: the inner loop
    [for key, value in results[impl].items()], filling the dictionary [out]. *)
Fixpoint serialize_items (items : list (Z * entry)) (out : dict summary)
    : dict summary :=
  match items with
  | [] => out
  | (key, value) :: rest =>
      serialize_items rest
        (dict_set out key
           {| summary_avg_time := avg_time value;
              summary_std_dev := std_dev value |})
  end.

(** [results_serializable], as the pair of its 'vulnerable' and 'secure'
    dictionaries. *)
Definition results_serializable (r : results) : dict summary * dict summary :=
  (serialize_items (vulnerable r) [], serialize_items (secure r) []).

(** ** Further vocabulary *)

(** The [n] differences of consecutive pairs of clock readings, from the
    [s]-th reading on. *)
Fixpoint clock_deltas (c : nat -> Z) (s n : nat) : list Z :=
  match n with
  | O => []
  | S n' => (c (S s) - c s) :: clock_deltas c (S (S s)) n'
  end.

(** An entry of a sweep is consistent: it holds 1000 measurements, their
    mean and their standard deviation. *)
Definition entry_ok (fsqrt : Q -> Q) (e : entry) : Prop :=
  length (all_times e) = 1000%nat
  /\ mean (map inject_Z (all_times e)) = Ok (avg_time e)
  /\ stdev fsqrt (map inject_Z (all_times e)) = Ok (std_dev e).

(** A clock that never runs backwards. *)
Definition monotone (c : nat -> Z) : Prop :=
  forall a b, (a <= b)%nat -> c a <= c b.

(** The summary kept for an entry. *)
Definition summary_of (e : entry) : summary :=
  {| summary_avg_time := avg_time e; summary_std_dev := std_dev e |}.

(** * Properties *)

(** ** Indexing and ranges *)

Lemma getitem_of_nat {A : Type} (s : list A) (k : nat) :
  getitem s (Z.of_nat k) =
  match nth_error s k with Some a => Ok a | None => Raise IndexError end.
Proof.
  unfold getitem.
  destruct (Z.ltb_spec (Z.of_nat k) 0) as [H|H]; [lia|].
  destruct (Z.ltb_spec (Z.of_nat k) 0); [lia|].
  now rewrite Nat2Z.id.
Qed.

Lemma getitem_cons_succ {A : Type} (a : A) (s : list A) (k : nat) :
  getitem (a :: s) (Z.of_nat (S k)) = getitem s (Z.of_nat k).
Proof. now rewrite !getitem_of_nat. Qed.

Lemma getitem_in_range {A : Type} (s : list A) (k : nat) :
  (k < length s)%nat -> exists a, getitem s (Z.of_nat k) = Ok a /\ nth_error s k = Some a.
Proof.
  intros H. rewrite getitem_of_nat.
  destruct (nth_error s k) as [a|] eqn:E.
  - now exists a.
  - apply nth_error_None in E. lia.
Qed.

Lemma range2_of_nat (l s m : nat) :
  map (fun k => Z.of_nat l + Z.of_nat k) (seq s m) = map Z.of_nat (seq (l + s) m).
Proof.
  revert s. induction m as [|m IH]; intros s; simpl; [reflexivity|].
  f_equal; [lia|].
  rewrite IH. now replace (l + S s)%nat with (S (l + s)) by lia.
Qed.

Lemma range_of_nat (n : nat) : range (Z.of_nat n) = map Z.of_nat (seq 0 n).
Proof.
  unfold range, range2. rewrite Z.sub_0_r, Nat2Z.id.
  apply (range2_of_nat 0 0 n).
Qed.

Lemma range_len {A : Type} (s : list A) : range (len s) = map Z.of_nat (seq 0 (length s)).
Proof. apply range_of_nat. Qed.

Lemma range_nonpos (n : Z) : n <= 0 -> range n = [].
Proof.
  intros H. unfold range, range2.
  now replace (Z.to_nat (n - 0)) with 0%nat by lia.
Qed.

Lemma len_eqb_length {A B : Type} (s : list A) (s' : list B) :
  (len s =? len s') = Nat.eqb (length s) (length s').
Proof.
  unfold len. destruct (Nat.eqb_spec (length s) (length s')) as [E|E].
  - rewrite E. apply Z.eqb_refl.
  - apply Z.eqb_neq. lia.
Qed.

(** ** The comparators *)

Lemma vulnerable_loop_shift (c a : char) (S0 I : str) (k n : nat) :
  vulnerable_loop {| correct_password := c :: S0 |} (a :: I)
    (map Z.of_nat (seq (S k) n)) =
  vulnerable_loop {| correct_password := S0 |} I (map Z.of_nat (seq k n)).
Proof.
  revert k. induction n as [|n IH]; intros k; [reflexivity|].
  cbn [seq map vulnerable_loop correct_password].
  rewrite !getitem_cons_succ. unfold bind.
  destruct (getitem I (Z.of_nat k)); try reflexivity.
  destruct (getitem S0 (Z.of_nat k)); try reflexivity.
  destruct (negb _); [reflexivity|apply IH].
Qed.

Lemma secure_loop_shift (c a : char) (S0 I : str) (k n : nat) (acc : Z) :
  secure_loop {| correct_password := c :: S0 |} (a :: I)
    (map Z.of_nat (seq (S k) n)) acc =
  secure_loop {| correct_password := S0 |} I (map Z.of_nat (seq k n)) acc.
Proof.
  revert k acc. induction n as [|n IH]; intros k acc; [reflexivity|].
  cbn [seq map secure_loop correct_password].
  rewrite !getitem_cons_succ. unfold bind.
  destruct (getitem I (Z.of_nat k)); try reflexivity.
  destruct (getitem S0 (Z.of_nat k)); try reflexivity.
  apply IH.
Qed.

(** On inputs of the secret's length the early-exit loop decides equality. *)
Lemma vulnerable_loop_spec (S0 I : str) :
  length I = length S0 ->
  exists b, vulnerable_loop {| correct_password := S0 |} I
              (map Z.of_nat (seq 0 (length S0))) = Ok b
            /\ (b = true <-> I = S0).
Proof.
  revert I. induction S0 as [|c S0 IH]; intros [|a I] HL; try discriminate.
  - exists true. now split.
  - injection HL as HL. destruct (IH I HL) as (b & Hb & Hiff).
    cbn [length seq map vulnerable_loop correct_password].
    change 0 with (Z.of_nat 0). rewrite !getitem_of_nat. cbn [nth_error bind].
    destruct (N.eqb_spec a c) as [->|Hne]; cbn [negb].
    + rewrite vulnerable_loop_shift. exists b. split; [exact Hb|].
      rewrite Hiff. split; [now intros ->|now intros [= ->]].
    + exists false. split; [reflexivity|].
      split; [discriminate|intros [= -> _]; contradiction].
Qed.

(** The accumulating loop never raises on an input at least as long as the
    secret, and its result is zero exactly when the accumulator was zero
    and the input starts with the secret. *)
Lemma secure_loop_spec (S0 I : str) (acc : Z) :
  (length S0 <= length I)%nat ->
  exists r, secure_loop {| correct_password := S0 |} I
              (map Z.of_nat (seq 0 (length S0))) acc = Ok r
            /\ (r = 0 <-> acc = 0 /\ firstn (length S0) I = S0).
Proof.
  revert I acc. induction S0 as [|c S0 IH]; intros I acc HL.
  - exists acc. split; [reflexivity|]. simpl. tauto.
  - destruct I as [|a I]; [simpl in HL; lia|].
    cbn [length] in HL.
    destruct (IH I (Z.lor acc (Z.lxor (ord a) (ord c))) ltac:(lia))
      as (r & Hr & Hiff).
    cbn [length seq map secure_loop correct_password].
    change 0 with (Z.of_nat 0) at 1 2. rewrite !getitem_of_nat. cbn [nth_error bind].
    rewrite secure_loop_shift. exists r. split; [exact Hr|].
    rewrite Hiff, Z.lor_eq_0_iff, Z.lxor_eq_0_iff. cbn [firstn].
    unfold ord. split.
    + intros [[Hacc Hord] Hf]. apply N2Z.inj in Hord.
      split; [exact Hacc|]. now rewrite Hord, Hf.
    + intros [Hacc Hf]. injection Hf as Hac Hf.
      repeat split; [exact Hacc|now rewrite Hac|exact Hf].
Qed.

(** [vulnerable_check] always returns, and returns [True] exactly on the
    secret. *)
Lemma vulnerable_check_spec (S0 C : str) :
  exists b, vulnerable_check {| correct_password := S0 |} C = Ok b
            /\ (b = true <-> C = S0).
Proof.
  unfold vulnerable_check. cbn [correct_password].
  rewrite len_eqb_length.
  destruct (Nat.eqb_spec (length C) (length S0)) as [E|E]; cbn [negb].
  - rewrite range_len. now apply vulnerable_loop_spec.
  - exists false. split; [reflexivity|].
    split; [discriminate|intros ->; contradiction].
Qed.

(** [secure_check] always returns, and returns [True] exactly when the
    padded candidate starts with the secret. *)
Lemma secure_check_spec (S0 C : str) :
  exists b, secure_check {| correct_password := S0 |} C = Ok b
            /\ (b = true <-> compared S0 C = S0).
Proof.
  unfold secure_check, compared. cbn [correct_password].
  rewrite len_eqb_length, range_len.
  assert (HL : (length S0 <= length (ljust C (len S0) NUL))%nat).
  { unfold ljust, len. rewrite length_app, repeat_length. lia. }
  destruct (Nat.eqb_spec (length C) (length S0)) as [E|E]; cbn [negb].
  - assert (HC : ljust C (len S0) NUL = C).
    { unfold ljust, len. rewrite E, Z.sub_diag. apply app_nil_r. }
    rewrite HC in *.
    destruct (secure_loop_spec S0 C 0 HL) as (r & Hr & Hiff).
    rewrite Hr. cbn [bind]. exists (r =? 0). split; [reflexivity|].
    rewrite Z.eqb_eq, Hiff. tauto.
  - destruct (secure_loop_spec S0 _ 0 HL) as (r & Hr & Hiff).
    rewrite Hr. cbn [bind]. exists (r =? 0). split; [reflexivity|].
    rewrite Z.eqb_eq, Hiff. tauto.
Qed.

Lemma compared_same_length (S0 C : str) :
  length C = length S0 -> compared S0 C = C.
Proof.
  intros E. unfold compared, ljust, len.
  rewrite E, Z.sub_diag. cbn [Z.to_nat repeat]. rewrite app_nil_r, <- E.
  apply firstn_all.
Qed.

Lemma compared_extension (S0 X : str) : compared S0 (S0 ++ X) = S0.
Proof.
  unfold compared, ljust. rewrite <- app_assoc.
  rewrite firstn_app, Nat.sub_diag, firstn_all. cbn [firstn]. apply app_nil_r.
Qed.

(** The early-exit variant rejects every candidate of another length. *)
Lemma vulnerable_check_length_mismatch (S0 C : str) :
  length C <> length S0 ->
  vulnerable_check {| correct_password := S0 |} C = Ok false.
Proof.
  intros E. unfold vulnerable_check. cbn [correct_password].
  rewrite len_eqb_length.
  now destruct (Nat.eqb_spec (length C) (length S0)).
Qed.

(** The constant-time variant accepts every candidate that extends the
    secret: the loop stops at the secret's length. *)
Lemma secure_check_accepts_extensions (S0 X : str) :
  secure_check {| correct_password := S0 |} (S0 ++ X) = Ok true.
Proof.
  destruct (secure_check_spec S0 (S0 ++ X)) as (b & Hb & Hiff).
  rewrite Hb. f_equal. apply Hiff, compared_extension.
Qed.

(** ** Claims about the comparators *)

(** C1 (defect).  Candidates whose length differs from the secret's must be
    rejected by both variants.  For the secret "ab" and the candidate "abc"
    the early-exit variant returns [False], but the constant-time variant
    returns [True]: it compares only the first two characters. *)
Theorem C1_secure_check_accepts_longer_candidate :
  let checker := {| correct_password := of_string "ab" |} in
  len (of_string "abc") <> len (correct_password checker)
  /\ vulnerable_check checker (of_string "abc") = Ok false
  /\ secure_check checker (of_string "abc") = Ok true.
Proof.
  cbv zeta. split; [discriminate|]. split; reflexivity.
Qed.

(** C6.  For every secret, each variant applied to the secret itself returns
    [True]. *)
Theorem C6_checks_accept_the_secret (S0 : str) :
  vulnerable_check {| correct_password := S0 |} S0 = Ok true
  /\ secure_check {| correct_password := S0 |} S0 = Ok true.
Proof.
  split.
  - destruct (vulnerable_check_spec S0 S0) as (b & Hb & Hiff).
    rewrite Hb. f_equal. now apply Hiff.
  - destruct (secure_check_spec S0 S0) as (b & Hb & Hiff).
    rewrite Hb. f_equal. apply Hiff. now apply compared_same_length.
Qed.

(** C10.  On a candidate of the secret's length the two variants return the
    same boolean. *)
Theorem C10_checks_agree_on_equal_length (S0 C : str) :
  len C = len S0 ->
  exists b, vulnerable_check {| correct_password := S0 |} C = Ok b
            /\ secure_check {| correct_password := S0 |} C = Ok b.
Proof.
  intros E. assert (E' : length C = length S0) by (unfold len in E; lia).
  destruct (vulnerable_check_spec S0 C) as (b1 & H1 & Hiff1).
  destruct (secure_check_spec S0 C) as (b2 & H2 & Hiff2).
  rewrite compared_same_length in Hiff2 by exact E'.
  exists b1. split; [exact H1|]. rewrite H2. f_equal.
  destruct b1, b2; try reflexivity.
  - apply Hiff2. now apply Hiff1.
  - symmetry. apply Hiff1. now apply Hiff2.
Qed.

(** C10 at the secret "secret" and the candidate "secreT". *)
Lemma C10_checks_agree_witness :
  exists b,
    vulnerable_check {| correct_password := of_string "secret" |}
      (of_string "secreT") = Ok b
    /\ secure_check {| correct_password := of_string "secret" |}
         (of_string "secreT") = Ok b.
Proof.
  apply (C10_checks_agree_on_equal_length (of_string "secret") (of_string "secreT")).
  reflexivity.
Defined.

(** ** The random tape and the alphabet *)

Lemma nodupb_NoDup (l : list N) : nodupb l = true -> NoDup l.
Proof.
  induction l as [|x rest IH]; intros H; [constructor|].
  cbn [nodupb] in H. apply andb_true_iff in H as [Hx Hrest].
  constructor; [|now apply IH].
  intros Hin. apply negb_true_iff in Hx.
  assert (existsb (N.eqb x) rest = true) as Hc; [|congruence].
  apply existsb_exists. exists x. split; [exact Hin|apply N.eqb_refl].
Qed.

Lemma chars_NoDup : NoDup chars.
Proof. apply nodupb_NoDup. vm_compute. reflexivity. Qed.

Lemma len_chars : len chars = 62.
Proof. reflexivity. Qed.

(** Every draw selects a character. *)
Lemma pick_chars (r : nat) :
  exists a, pick chars r = Ok a
            /\ nth_error chars (Z.to_nat (Z.of_nat r mod 62)) = Some a.
Proof.
  unfold pick. rewrite len_chars.
  assert (Hm : 0 <= Z.of_nat r mod 62 < 62) by (apply Z.mod_pos_bound; lia).
  destruct (getitem_in_range chars (Z.to_nat (Z.of_nat r mod 62))) as (a & Ha & Hn).
  - change (length chars) with 62%nat. lia.
  - rewrite Z2Nat.id in Ha by lia. now exists a.
Qed.

Lemma pick_chars_distinct (r1 r2 : nat) (a b : char) :
  same_pick r1 r2 = false ->
  pick chars r1 = Ok a -> pick chars r2 = Ok b -> a <> b.
Proof.
  intros Hs H1 H2 ->.
  destruct (pick_chars r1) as (a1 & E1 & N1).
  destruct (pick_chars r2) as (a2 & E2 & N2).
  rewrite H1 in E1. rewrite H2 in E2.
  injection E1 as <-. injection E2 as <-.
  assert (Hm1 : 0 <= Z.of_nat r1 mod 62 < 62) by (apply Z.mod_pos_bound; lia).
  assert (Hm2 : 0 <= Z.of_nat r2 mod 62 < 62) by (apply Z.mod_pos_bound; lia).
  assert (Hi : Z.to_nat (Z.of_nat r1 mod 62) = Z.to_nat (Z.of_nat r2 mod 62)).
  { apply (proj1 (NoDup_nth_error chars) chars_NoDup).
    - change (length chars) with 62%nat. lia.
    - now rewrite N1, N2. }
  unfold same_pick in Hs. rewrite len_chars in Hs.
  apply Z.eqb_neq in Hs. lia.
Qed.

Lemma choice_chars_cons (r : nat) (t : tape) :
  choice chars (r :: t) = (a <- pick chars r ;; Ok (a, t)).
Proof. reflexivity. Qed.

Lemma stutter_free_tail (r : nat) (t : tape) :
  stutter_free (r :: t) = true -> stutter_free t = true.
Proof.
  destruct t as [|r2 t]; [reflexivity|].
  cbn [stutter_free]. intros H. now apply andb_true_iff in H.
Qed.

Lemma stutter_free_suffix (used t : tape) :
  stutter_free (used ++ t) = true -> stutter_free t = true.
Proof.
  induction used as [|r used IH]; intros H; [exact H|].
  apply IH. now apply stutter_free_tail in H.
Qed.

Lemma stutter_free_head (r1 r2 : nat) (t : tape) :
  stutter_free (r1 :: r2 :: t) = true -> same_pick r1 r2 = false.
Proof.
  cbn [stutter_free]. intros H. apply andb_true_iff in H as [H _].
  now apply negb_true_iff in H.
Qed.

(** ** The attempt generator *)

Lemma resample_eq (S0 : str) (i : Z) (rc : char) (t : tape) :
  resample S0 i rc t =
  (c <- getitem S0 i ;;
   if N.eqb rc c then
     match t with
     | [] => Pending
     | r :: t' => random_char <- pick chars r ;; resample S0 i random_char t'
     end
   else Ok (rc, t)).
Proof. destruct t; reflexivity. Qed.

Lemma resample_accept (S0 : str) (i : Z) (c0 rc : char) (t : tape) :
  getitem S0 i = Ok c0 -> rc <> c0 -> resample S0 i rc t = Ok (rc, t).
Proof.
  intros Hc Hne. rewrite resample_eq, Hc. cbn [bind].
  now destruct (N.eqb_spec rc c0).
Qed.

(** The resampling loop, entered with the character [rc] that the draw [r0]
    selected: it returns a character other than the secret's, and on a
    stutter-free tape it uses at most one more draw. *)
Lemma resample_runs (S0 : str) (i : Z) (c0 : char) :
  getitem S0 i = Ok c0 ->
  forall (t : tape) (r0 : nat) (rc : char),
    pick chars r0 = Ok rc ->
    match resample S0 i rc t with
    | Ok (rc', t') =>
        rc' <> c0 /\
        exists used, t = used ++ t' /\
          (stutter_free (r0 :: t) = true -> (length used <= 1)%nat)
    | Raise _ => False
    | Pending => stutter_free (r0 :: t) = true -> t = []
    end.
Proof.
  intros Hc. induction t as [|r t IH]; intros r0 rc Hp;
    rewrite resample_eq, Hc; cbn [bind].
  - destruct (N.eqb_spec rc c0) as [->|Hne]; [reflexivity|].
    split; [exact Hne|]. exists []. split; [reflexivity|]. simpl. lia.
  - destruct (N.eqb_spec rc c0) as [->|Hne].
    + destruct (pick_chars r) as (rc2 & Hp2 & _). rewrite Hp2. cbn [bind].
      specialize (IH r rc2 Hp2).
      assert (Hfair : stutter_free (r0 :: r :: t) = true ->
                      resample S0 i rc2 t = Ok (rc2, t)).
      { intros Hsf. apply (resample_accept S0 i c0); [exact Hc|].
        apply not_eq_sym.
        exact (pick_chars_distinct r0 r c0 rc2 (stutter_free_head _ _ _ Hsf) Hp Hp2). }
      destruct (resample S0 i rc2 t) as [[rc' t']| |].
      * destruct IH as (Hne & used & Ht & _). split; [exact Hne|].
        exists (r :: used). split; [now rewrite Ht|].
        intros Hsf. specialize (Hfair Hsf). injection Hfair as _ Ht'.
        assert (length t = length used + length t')%nat as Hl
          by (rewrite Ht at 1; apply length_app).
        rewrite Ht' in Hl. cbn [length]. lia.
      * exact IH.
      * intros Hsf. specialize (Hfair Hsf). discriminate.
    + split; [exact Hne|]. exists []. split; [reflexivity|]. simpl. lia.
Qed.

(** The filling loop over the positions [k], ..., [k + n - 1]. *)
Lemma fill_runs (S0 : str) (n : nat) :
  forall (k : nat) (attempt : str) (t : tape),
    (k + n <= length S0)%nat ->
    runs (fill S0 (map Z.of_nat (seq k n)) attempt t) t (2 * n)
      (fun c => exists suffix,
           c = attempt ++ suffix /\ length suffix = n /\
           forall j, (j < n)%nat -> nth_error suffix j <> nth_error S0 (k + j)).
Proof.
  induction n as [|n IH]; intros k attempt t Hk.
  - cbn [seq map fill runs]. split.
    + exists []. split; [now rewrite app_nil_r|]. split; [reflexivity|]. lia.
    + exists []. split; [reflexivity|]. simpl. lia.
  - cbn [seq map fill].
    destruct t as [|r0 t1].
    + change (choice chars []) with (@Pending (char * tape)).
      cbn [bind runs length]. split; [lia|intros _; lia].
    + rewrite choice_chars_cons.
      destruct (pick_chars r0) as (rc & Hp & _). rewrite Hp. cbn [bind].
      destruct (getitem_in_range S0 k ltac:(lia)) as (c0 & Hc & Hn).
      pose proof (resample_runs S0 (Z.of_nat k) c0 Hc t1 r0 rc Hp) as HR.
      destruct (resample S0 (Z.of_nat k) rc t1) as [[rc' t2]| |]; cbn [bind].
      * destruct HR as (Hne & used1 & Ht1 & Hl1).
        specialize (IH (S k) (attempt ++ [rc']) t2 ltac:(lia)).
        destruct (fill S0 (map Z.of_nat (seq (S k) n)) (attempt ++ [rc']) t2)
          as [[c t3]| |]; cbn [runs] in *.
        -- destruct IH as ((suffix & Hcs & Hls & Hdiff) & used2 & Ht2 & Hl2).
           split.
           ++ exists (rc' :: suffix). split; [now rewrite Hcs, <- app_assoc|].
              split; [simpl; lia|].
              intros [|j] Hj; cbn [nth_error].
              ** rewrite Nat.add_0_r, Hn. congruence.
              ** replace (k + S j)%nat with (S k + j)%nat by lia.
                 apply Hdiff. lia.
           ++ exists (r0 :: used1 ++ used2). split.
              ** rewrite Ht1, Ht2. cbn [app]. now rewrite app_assoc.
              ** intros Hsf. specialize (Hl1 Hsf).
                 assert (stutter_free t2 = true) as Hsf2.
                 { apply (stutter_free_suffix (r0 :: used1)). now rewrite <- app_comm_cons, <- Ht1. }
                 specialize (Hl2 Hsf2). cbn [length]. rewrite length_app. lia.
        -- exact IH.
        -- split; [lia|]. destruct IH as [_ IH].
           intros Hsf. specialize (Hl1 Hsf).
           assert (stutter_free t2 = true) as Hsf2.
           { apply (stutter_free_suffix (r0 :: used1)). now rewrite <- app_comm_cons, <- Ht1. }
           specialize (IH Hsf2). rewrite Ht1. cbn [length]. rewrite length_app. lia.
      * exact HR.
      * cbn [runs]. split; [lia|]. intros Hsf. rewrite (HR Hsf). simpl. lia.
Qed.

Lemma runs_weaken {A : Type} (r : result (A * tape)) (t : tape) (budget : nat)
    (P Q : A -> Prop) :
  (forall a, P a -> Q a) -> runs r t budget P -> runs r t budget Q.
Proof.
  intros HPQ. destruct r as [[a t']| |]; cbn [runs]; [|tauto..].
  intros [HP Hu]. split; [now apply HPQ|exact Hu].
Qed.

Lemma slice_to_of_nat {A : Type} (s : list A) (l : nat) :
  slice_to s (Z.of_nat l) = firstn l s.
Proof.
  unfold slice_to. destruct (Z.ltb_spec (Z.of_nat l) 0); [lia|].
  now rewrite Nat2Z.id.
Qed.

Lemma range2_nat (l m : nat) :
  (l <= m)%nat ->
  range2 (Z.of_nat l) (Z.of_nat m) = map Z.of_nat (seq l (m - l)).
Proof.
  intros H. unfold range2.
  replace (Z.to_nat (Z.of_nat m - Z.of_nat l)) with (m - l)%nat by lia.
  rewrite range2_of_nat. now rewrite Nat.add_0_r.
Qed.

(** The generator, for a match length [l] within the secret. *)
Lemma generate_runs (S0 : str) (l : nat) (t : tape) :
  (l <= length S0)%nat ->
  runs (generate_password_attempts S0 (Z.of_nat l) t) t
    (2 * (length S0 - l))
    (fun c => matches_exactly S0 l c /\ (l = length S0 -> c = S0)).
Proof.
  intros Hl. unfold generate_password_attempts.
  destruct (Z.geb_spec (Z.of_nat l) (len S0)) as [Hge|Hlt]; unfold len in *.
  - assert (l = length S0) as -> by lia. cbn [runs]. split.
    + split; [|reflexivity]. split; [reflexivity|]. split; [reflexivity|].
      intros i Hi. lia.
    + exists []. split; [reflexivity|]. simpl. lia.
  - rewrite slice_to_of_nat, range2_nat by lia.
    eapply runs_weaken; [|apply fill_runs; lia].
    intros c (suffix & Hc & Hls & Hdiff).
    assert (Hf : length (firstn l S0) = l) by (rewrite length_firstn; lia).
    split; [|lia]. split; [|split].
    + rewrite Hc, length_app, Hf, Hls. lia.
    + rewrite Hc, firstn_app, Hf, Nat.sub_diag. cbn [firstn].
      rewrite app_nil_r, firstn_firstn. f_equal. lia.
    + intros i Hi. rewrite Hc, nth_error_app2 by lia. rewrite Hf.
      replace i with (l + (i - l))%nat at 2 by lia. apply Hdiff. lia.
Qed.

(** C5.  For a secret [S0] and a match length [L] with [0 <= L <= |S0|] the
    generator never raises; a candidate it returns has the secret's length,
    the secret's first [L] characters, and a character other than the
    secret's at every position from [L] on (at position [L] in particular,
    when [L < |S0|]), and is the secret itself when [L = |S0|]; and it does
    return on every stutter-free tape of at least [2 * (|S0| - L)] draws. *)
Theorem C5_generate_password_attempts (S0 : str) (L : Z) (t : tape) :
  0 <= L <= len S0 ->
  (forall e, generate_password_attempts S0 L t <> Raise e)
  /\ (forall c t', generate_password_attempts S0 L t = Ok (c, t') ->
        len c = len S0
        /\ slice_to c L = slice_to S0 L
        /\ (forall i, L <= i < len S0 ->
              exists a b, getitem c i = Ok a /\ getitem S0 i = Ok b /\ a <> b)
        /\ (L = len S0 -> c = S0))
  /\ (stutter_free t = true -> 2 * (len S0 - L) <= len t ->
        exists c t', generate_password_attempts S0 L t = Ok (c, t')).
Proof.
  intros HL. unfold len in HL.
  pose proof (generate_runs S0 (Z.to_nat L) t ltac:(lia)) as HR.
  rewrite Z2Nat.id in HR by lia.
  destruct (generate_password_attempts S0 L t) as [[c t']| |]; cbn [runs] in HR.
  - split; [discriminate|]. split; [|intros _ _; now exists c, t'].
    intros c1 t1 [= <- <-].
    destruct HR as (((Hlen & Hpre & Hdiff) & Hfull) & _).
    split; [unfold len; now rewrite Hlen|].
    split.
    { rewrite <- (Z2Nat.id L) by lia. now rewrite !slice_to_of_nat. }
    split.
    + intros i Hi. unfold len in Hi.
      rewrite <- (Z2Nat.id i) by lia.
      destruct (getitem_in_range c (Z.to_nat i) ltac:(lia)) as (a & Ha & Hna).
      destruct (getitem_in_range S0 (Z.to_nat i) ltac:(lia)) as (b & Hb & Hnb).
      exists a, b. split; [exact Ha|]. split; [exact Hb|].
      intros ->. apply (Hdiff (Z.to_nat i)); [lia|congruence].
    + intros HLe. apply Hfull. unfold len in HLe. lia.
  - contradiction.
  - split; [discriminate|]. split; [discriminate|].
    intros Hsf Hlen. destruct HR as [_ HR]. specialize (HR Hsf).
    unfold len in Hlen. lia.
Qed.

(** C5 at the secret "abc", the match length 1 and four draws. *)
Lemma C5_generate_password_attempts_witness :
  let S0 := of_string "abc" in
  let t := [1; 2; 3; 4]%nat in
  (forall e, generate_password_attempts S0 1 t <> Raise e)
  /\ (forall c t', generate_password_attempts S0 1 t = Ok (c, t') ->
        len c = len S0
        /\ slice_to c 1 = slice_to S0 1
        /\ (forall i, 1 <= i < len S0 ->
              exists a b, getitem c i = Ok a /\ getitem S0 i = Ok b /\ a <> b)
        /\ (1 = len S0 -> c = S0))
  /\ (stutter_free t = true -> 2 * (len S0 - 1) <= len t ->
        exists c t', generate_password_attempts S0 1 t = Ok (c, t')).
Proof.
  apply (C5_generate_password_attempts (of_string "abc") 1 [1; 2; 3; 4]%nat).
  vm_compute. split; discriminate.
Defined.

(** ** The sampler *)

Lemma tick_world_0 (w : world) : tick_world w 0 = w.
Proof. destruct w. unfold tick_world. cbn. now rewrite Nat.add_0_r. Qed.

Lemma sample_loop_ok {A : Type} (func : str -> result A) (arg : str) (v : A) :
  func arg = Ok v ->
  forall (idx : list Z) (times : list Z) (w : world),
  exists new,
    sample_loop func arg idx times w
    = Ok (times ++ new, tick_world w (2 * length idx))
    /\ length new = length idx.
Proof.
  intros Hf. induction idx as [|i idx IH]; intros times w.
  - exists []. cbn. now rewrite app_nil_r, tick_world_0.
  - cbn [sample_loop]. unfold mbind at 1. unfold perf_counter_ns at 1. cbn [bind].
    unfold mbind at 1. unfold lift at 1. rewrite Hf. cbn [bind].
    unfold mbind at 1. unfold perf_counter_ns at 1. cbn [bind ticks clock].
    match goal with |- context [sample_loop func arg idx ?ts ?w1] =>
      destruct (IH ts w1) as (new & Hnew & Hlen); rewrite Hnew
    end.
    eexists (_ :: new). split.
    + rewrite <- app_assoc. cbn [app]. f_equal. f_equal.
      unfold tick_world. cbn. f_equal. lia.
    + cbn [length]. now rewrite Hlen.
Qed.

Lemma length_range (n : Z) : length (range n) = Z.to_nat n.
Proof.
  unfold range, range2. now rewrite length_map, length_seq, Z.sub_0_r.
Qed.

Lemma mean_ok (data : list Q) :
  data <> [] -> mean data = Ok (Qred (fsum data / inject_Z (len data))).
Proof.
  intros H. unfold mean.
  destruct (Z.ltb_spec (len data) 1) as [Hl|Hl]; [|reflexivity].
  destruct data; [contradiction|]. unfold len in Hl. cbn [length] in Hl. lia.
Qed.

(** With a positive iteration count the sampler returns that many
    measurements and their mean, after two clock queries per iteration. *)
Lemma measure_execution_time_ok {A : Type} (func : str -> result A)
    (arg : str) (v : A) (iterations : Z) (w : world) :
  func arg = Ok v -> 0 < iterations ->
  exists times,
    measure_execution_time func arg iterations w
    = Ok ((Qred (fsum (map inject_Z times) / inject_Z (len times)), times),
          tick_world w (2 * Z.to_nat iterations))
    /\ length times = Z.to_nat iterations.
Proof.
  intros Hf Hpos. unfold measure_execution_time, mbind.
  destruct (sample_loop_ok func arg v Hf (range iterations) [] w)
    as (times & Hs & Hl).
  rewrite Hs. cbn [app bind]. rewrite length_range in *.
  exists times. split; [|exact Hl].
  unfold lift. rewrite mean_ok.
  - cbn [bind ret]. unfold len. now rewrite length_map.
  - destruct times; [cbn in Hl; lia|discriminate].
Qed.

(** With a non-positive iteration count the sampling loop is empty and
    [statistics.mean] raises. *)
Lemma measure_execution_time_no_iterations {A : Type}
    (func : str -> result A) (arg : str) (iterations : Z) (w : world) :
  iterations <= 0 ->
  measure_execution_time func arg iterations w = Raise StatisticsError.
Proof.
  intros H. unfold measure_execution_time, mbind.
  now rewrite range_nonpos.
Qed.

Lemma method_total (s : strategy) (checker : PasswordChecker) (arg : str) :
  exists b, method s checker arg = Ok b.
Proof.
  destruct checker as [S0]. destruct s; cbn [method].
  - destruct (vulnerable_check_spec S0 arg) as (b & Hb & _). now exists b.
  - destruct (secure_check_spec S0 arg) as (b & Hb & _). now exists b.
Qed.

Lemma stdev_ok (fsqrt : Q -> Q) (data : list Q) :
  (2 <= length data)%nat -> exists sd, stdev fsqrt data = Ok sd.
Proof.
  intros H. unfold stdev.
  destruct (Z.ltb_spec (len data) 2) as [Hl|Hl]; [unfold len in Hl; lia|].
  eexists. reflexivity.
Qed.

Lemma stdev_single (fsqrt : Q -> Q) (x : Q) :
  stdev fsqrt [x] = Raise StatisticsError.
Proof. reflexivity. Qed.

(** C7 (as stated, refuted).  One iteration of the sampler around
    [secure_check] gives one measurement, and [statistics.stdev] of that
    measurement set raises instead of being zero. *)
Lemma C7_stdev_of_one_measurement_raises :
  exists avg times w',
    measure_execution_time
      (secure_check {| correct_password := of_string "ab" |})
      (of_string "ab") 1 coarse_world
    = Ok ((avg, times), w')
    /\ length times = 1%nat
    /\ forall fsqrt, stdev fsqrt (map inject_Z times) = Raise StatisticsError.
Proof.
  eexists _, _, _. split; [vm_compute; reflexivity|].
  split; [reflexivity|]. intros fsqrt. reflexivity.
Qed.

(** C7 (amended).  With an iteration count of 1 the sampler, around either
    comparator, returns exactly one measurement, the difference of the two
    clock readings, and a mean equal to it; it computes no standard
    deviation, and [statistics.stdev] raises on that measurement set. *)
Theorem C7_one_iteration (s : strategy) (checker : PasswordChecker)
    (arg : str) (w : world) :
  exists avg t,
    measure_execution_time (method s checker) arg 1 w
    = Ok ((avg, [t]), tick_world w 2)
    /\ t = clock w (S (ticks w)) - clock w (ticks w)
    /\ (avg == inject_Z t)%Q
    /\ forall fsqrt, stdev fsqrt (map inject_Z [t]) = Raise StatisticsError.
Proof.
  destruct (method_total s checker arg) as (b & Hb).
  unfold measure_execution_time. change (range 1) with [0].
  cbn [sample_loop]. unfold mbind, perf_counter_ns, lift, ret.
  rewrite Hb. cbn [bind ticks clock app map].
  eexists _, _. split.
  - unfold tick_world. cbn [clock ticks draws sampled].
    replace (ticks w + 2)%nat with (S (S (ticks w))) by lia. reflexivity.
  - split; [reflexivity|]. split; [|intros fsqrt; reflexivity].
    unfold fsum. cbn [fold_left len length Z.of_nat].
    rewrite !Qred_correct. change (inject_Z (Z.pos (Pos.of_succ_nat 0))) with 1%Q.
    field.
Qed.

(** ** The verdicts *)





(** ** The analyzer *)

(** C8 (defect).  The degenerate cases of the analyzer must yield a
    sentinel.  The correlation of a single data point does (it is 0), but
    the percentage against a zero baseline does not: on the results of a
    sweep of the empty secret under a clock that does not advance, the
    fastest average is 0 and [analyze_results] raises ZeroDivisionError. *)
Theorem C8_zero_baseline_raises (fsqrt : Q -> Q) :
  (forall x, guarded_correlation fsqrt [x] = Ok 0%Q)
  /\ exists r w',
       timing_attack_simulation fsqrt 0 coarse_world = Ok ((r, []), w')
       /\ avg_times (vulnerable r) (sorted (keys (vulnerable r))) = Ok [0%Q]
       /\ analyze_results fsqrt r = Raise ZeroDivisionError.
Proof.
  split; [reflexivity|].
  eexists _, _. split; [vm_compute; reflexivity|].
  split; vm_compute; reflexivity.
Qed.

(** ** The experiment runner *)

(** [random.choices(chars, k=k)] uses exactly [k] draws. *)
Lemma choices_runs (k : nat) :
  forall t : tape,
    runs (choices_loop chars k t) t k (fun pwd => length pwd = k).
Proof.
  induction k as [|k IH]; intros t.
  - cbn [choices_loop runs]. split; [reflexivity|].
    exists []. split; [reflexivity|]. simpl. lia.
  - cbn [choices_loop]. destruct t as [|r t1].
    + change (choice chars []) with (@Pending (char * tape)).
      cbn [bind runs length]. split; [lia|intros _; lia].
    + rewrite choice_chars_cons.
      destruct (pick_chars r) as (a & Hp & _). rewrite Hp. cbn [bind].
      specialize (IH t1).
      destruct (choices_loop chars k t1) as [[rest t2]| |]; cbn [bind runs] in *.
      * destruct IH as (Hlen & used & Ht & Hl). split; [simpl; lia|].
        exists (r :: used). split; [now rewrite Ht|].
        intros Hsf. apply stutter_free_tail in Hsf. specialize (Hl Hsf).
        simpl. lia.
      * exact IH.
      * destruct IH as [_ IH]. split; [lia|].
        intros Hsf. apply stutter_free_tail in Hsf. specialize (IH Hsf).
        simpl. lia.
Qed.

(** A sweep over match lengths within the secret: every candidate it samples
    is recorded and matches the secret on exactly its match length; each
    match length costs 2000 clock queries. *)
Lemma sweep_runs (fsqrt : Q -> Q) (checker : PasswordChecker) (s : strategy)
    (ls : list nat) :
  forall (d : dict entry) (w : world),
    Forall (fun l => (l <= length (correct_password checker))%nat) ls ->
    wruns (sweep fsqrt checker s (map Z.of_nat ls) d w) w
      (2 * length (correct_password checker) * length ls)
      (fun _ w' =>
         ticks w' = (ticks w + 2000 * length ls)%nat
         /\ exists attempts,
              sampled w' = sampled w ++ sweep_log s (map Z.of_nat ls) attempts
              /\ Forall2 (attempt_ok (correct_password checker)) ls attempts).
Proof.
  induction ls as [|l ls IH]; intros d w Hls.
  - cbn [map sweep ret wruns]. split; [reflexivity|]. split.
    + split; [cbn [length]; lia|].
      exists []. split; [now rewrite app_nil_r|constructor].
    + exists []. split; [reflexivity|]. cbn [length]. lia.
  - inversion Hls as [|? ? Hl Hrest]; subst.
    cbn [map sweep]. unfold mbind at 1. unfold with_random at 1.
    pose proof (generate_runs (correct_password checker) l (draws w) Hl) as HG.
    destruct (generate_password_attempts (correct_password checker)
                (Z.of_nat l) (draws w)) as [[a t']| |]; cbn [bind runs] in *.
    + destruct HG as (Hok & used1 & Ht1 & Hl1).
      unfold mbind at 1. unfold note at 1. cbn [bind clock ticks draws sampled].
      destruct (method_total s checker a) as (b & Hb).
      unfold mbind at 1.
      match goal with |- context [measure_execution_time _ a 1000 ?w2] =>
        destruct (measure_execution_time_ok (method s checker) a b 1000 w2 Hb
                    ltac:(lia)) as (times & Hm & Hlt);
        rewrite Hm
      end.
      cbn [bind]. unfold mbind at 1. unfold lift at 1.
      destruct (stdev_ok fsqrt (map inject_Z times)) as (sd & Hsd).
      { rewrite length_map, Hlt. lia. }
      rewrite Hsd. cbn [bind].
      match goal with |- context [sweep fsqrt checker s _ ?d3 ?w3] =>
        specialize (IH d3 w3 Hrest);
        destruct (sweep fsqrt checker s (map Z.of_nat ls) d3 w3)
          as [[d' w']| |]
      end; cbn [wruns tick_world clock ticks draws sampled] in *.
      * destruct IH as (Hclock & (Hticks & attempts & Hlog & Hall) & used2 & Ht2 & Hl2).
        split; [exact Hclock|]. split.
        -- split; [rewrite Hticks; cbn [length]; lia|].
           exists (a :: attempts). split; [|now constructor].
           rewrite Hlog, <- app_assoc. reflexivity.
        -- exists (used1 ++ used2). split; [now rewrite Ht1, Ht2, app_assoc|].
           intros Hsf. specialize (Hl1 Hsf).
           assert (stutter_free t' = true) as Hsf2
             by (apply (stutter_free_suffix used1); now rewrite <- Ht1).
           specialize (Hl2 Hsf2). rewrite length_app. cbn [length]. lia.
      * exact IH.
      * destruct IH as [Hpos IH]. split; [cbn [length]; lia|].
        intros Hsf. specialize (Hl1 Hsf).
        assert (stutter_free t' = true) as Hsf2
          by (apply (stutter_free_suffix used1); now rewrite <- Ht1).
        specialize (IH Hsf2). rewrite Ht1, length_app. cbn [length]. lia.
    + exact HG.
    + cbn [wruns]. destruct HG as [Hpos HG]. split; [cbn [length]; lia|].
      intros Hsf. specialize (HG Hsf). cbn [length]. lia.
Qed.

Lemma range_to_nat (z : Z) : range z = map Z.of_nat (seq 0 (Z.to_nat z)).
Proof.
  unfold range, range2. rewrite Z.sub_0_r.
  apply (range2_of_nat 0 0 (Z.to_nat z)).
Qed.

(** The whole run, for any secret length [n]: [k] draws for the secret, then
    the two sweeps over the match lengths [0 .. n]. *)
Lemma timing_attack_simulation_runs (fsqrt : Q -> Q) (n : Z) (w : world) :
  wruns (timing_attack_simulation fsqrt n w) w
    (Z.to_nat n + 4 * Z.to_nat n * Z.to_nat (n + 1))
    (fun out w' =>
       length (snd out) = Z.to_nat n
       /\ password_length (fst out) = n
       /\ ticks w' = (ticks w + 4000 * Z.to_nat (n + 1))%nat
       /\ exists va sa,
            sampled w' = sampled w
                         ++ sweep_log Vulnerable (range (n + 1)) va
                         ++ sweep_log Secure (range (n + 1)) sa
            /\ Forall2 (attempt_ok (snd out)) (seq 0 (Z.to_nat (n + 1))) va
            /\ Forall2 (attempt_ok (snd out)) (seq 0 (Z.to_nat (n + 1))) sa).
Proof.
  unfold timing_attack_simulation. rewrite range_to_nat.
  set (k := Z.to_nat n). set (m := Z.to_nat (n + 1)).
  assert (Hm : (m <= S k)%nat) by lia.
  unfold mbind at 1. unfold with_random at 1. unfold choices. fold k.
  pose proof (choices_runs k (draws w)) as HC.
  destruct (choices_loop chars k (draws w)) as [[pwd t1]| |];
    cbn [bind runs] in *; [|exact HC|].
  2:{ cbn [wruns]. destruct HC as [Hpos HC]. split; [lia|].
      intros Hsf. specialize (HC Hsf). lia. }
  destruct HC as (Hlen & used0 & Ht0 & Hl0).
  assert (Hls : Forall (fun l => (l <= length (correct_password
                          {| correct_password := pwd |}))%nat) (seq 0 m)).
  { apply Forall_forall. intros l Hin. apply in_seq in Hin.
    cbn [correct_password]. lia. }
  unfold mbind at 1.
  match goal with |- context [sweep fsqrt ?c Vulnerable _ [] ?w1] =>
    pose proof (sweep_runs fsqrt c Vulnerable (seq 0 m) [] w1 Hls) as H1;
    destruct (sweep fsqrt c Vulnerable (map Z.of_nat (seq 0 m)) [] w1)
      as [[vuln w2]| |]
  end; cbn [bind wruns clock ticks draws sampled correct_password] in *;
    [|exact H1|].
  2:{ destruct H1 as [Hpos H1]. rewrite length_seq in *. split; [lia|].
      intros Hsf. specialize (Hl0 Hsf).
      assert (stutter_free t1 = true) as Hsf1
        by (apply (stutter_free_suffix used0); now rewrite <- Ht0).
      specialize (H1 Hsf1). rewrite Ht0, length_app. lia. }
  destruct H1 as (Hc1 & (Htk1 & va & Hlog1 & Hva) & used1 & Ht1 & Hl1).
  unfold mbind at 1.
  pose proof (sweep_runs fsqrt {| correct_password := pwd |} Secure
                (seq 0 m) [] w2 Hls) as H2.
  destruct (sweep fsqrt {| correct_password := pwd |} Secure
              (map Z.of_nat (seq 0 m)) [] w2) as [[sec w3]| |];
    cbn [bind wruns ret clock ticks draws sampled correct_password fst snd
         password_length] in *; [|exact H2|].
  2:{ destruct H2 as [Hpos H2]. rewrite length_seq in *. split; [lia|].
      intros Hsf. specialize (Hl0 Hsf).
      assert (stutter_free t1 = true) as Hsf1
        by (apply (stutter_free_suffix used0); now rewrite <- Ht0).
      specialize (Hl1 Hsf1).
      assert (stutter_free (draws w2) = true) as Hsf2
        by (apply (stutter_free_suffix used1); now rewrite <- Ht1).
      specialize (H2 Hsf2). rewrite Ht0, Ht1, !length_app. lia. }
  destruct H2 as (Hc2 & (Htk2 & sa & Hlog2 & Hsa) & used2 & Ht2 & Hl2).
  rewrite length_seq in *.
  split; [congruence|]. split.
  - split; [exact Hlen|]. split; [reflexivity|]. split; [lia|].
    exists va, sa. split; [|split; assumption].
    rewrite Hlog2, Hlog1, <- app_assoc. reflexivity.
  - exists (used0 ++ used1 ++ used2). split.
    + rewrite Ht0, Ht1, Ht2, <- !app_assoc. reflexivity.
    + intros Hsf. specialize (Hl0 Hsf).
      assert (stutter_free t1 = true) as Hsf1
        by (apply (stutter_free_suffix used0); now rewrite <- Ht0).
      specialize (Hl1 Hsf1).
      assert (stutter_free (draws w2) = true) as Hsf2
        by (apply (stutter_free_suffix used1); now rewrite <- Ht1).
      specialize (Hl2 Hsf2). rewrite !length_app. lia.
Qed.




(** C4 (as stated, refuted).  A secret length of 0 is not rejected: whatever
    the square root, the run on it does not raise. *)
Lemma C4_length_zero_is_not_rejected :
  ~ exists fsqrt e,
      timing_attack_simulation fsqrt 0 coarse_world = Raise e.
Proof.
  intros (fsqrt & e & H). vm_compute in H. discriminate.
Qed.

(** C4 (amended).  Nothing validates the configuration.  A non-positive
    secret length [n] is accepted: the run generates the empty secret and
    returns after sweeping [range(n + 1)], at 4000 clock queries per match
    length (one match length for [n = 0], none for [n < 0]).  The runner has
    no iteration parameter; the sampler called with a non-positive count
    fails only after its empty loop, when [statistics.mean] raises. *)
Theorem C4_no_configuration_check (fsqrt : Q -> Q) (n : Z) (w : world) :
  n <= 0 ->
  (exists r w',
     timing_attack_simulation fsqrt n w = Ok ((r, []), w')
     /\ password_length r = n
     /\ ticks w' = (ticks w + 4000 * Z.to_nat (n + 1))%nat)
  /\ (forall (A : Type) (func : str -> result A) (arg : str) (k : Z),
        k <= 0 ->
        measure_execution_time func arg k w = Raise StatisticsError).
Proof.
  intros Hn. split.
  - pose proof (timing_attack_simulation_runs fsqrt n w) as HR.
    replace (Z.to_nat n) with 0%nat in HR by lia.
    destruct (timing_attack_simulation fsqrt n w) as [[[r pwd] w']| |];
      cbn [wruns fst snd] in HR.
    + destruct HR as (_ & (Hlen & Hpl & Htk & _) & _).
      destruct pwd; [|discriminate]. now exists r, w'.
    + contradiction.
    + destruct HR as [HR _]. cbn in HR. lia.
  - intros A func arg k Hk. now apply measure_execution_time_no_iterations.
Qed.

(** C4 (amended) at the secret length 0. *)
Lemma C4_no_configuration_check_witness :
  (exists r w',
     timing_attack_simulation sqrt_floor53 0 coarse_world = Ok ((r, []), w')
     /\ password_length r = 0
     /\ ticks w' = (ticks coarse_world + 4000 * Z.to_nat (0 + 1))%nat)
  /\ (forall (A : Type) (func : str -> result A) (arg : str) (k : Z),
        k <= 0 ->
        measure_execution_time func arg k coarse_world = Raise StatisticsError).
Proof.
  apply (C4_no_configuration_check sqrt_floor53 0 coarse_world). lia.
Defined.

(** The two verdict lines that [analyze_results] prints are the verdicts of
    the two correlations it returns. *)
Lemma analyze_results_verdicts (fsqrt : Q -> Q) (r : results)
    (lines : list string) (a : analysis) :
  analyze_results fsqrt r = Ok (lines, a) ->
  lines = [vulnerable_verdict (vulnerable_correlation a);
           secure_verdict (secure_correlation a)].
Proof.
  unfold analyze_results. intros H.
  repeat match type of H with
         | context [bind ?x _] => destruct x; cbn [bind] in H; try discriminate
         end.
  injection H as <- <-. reflexivity.
Qed.

(** A sweep with a single point has correlation 0 by the guard, without a
    call of [statistics.correlation], which would raise on it. *)
Lemma single_point_correlation (fsqrt : Q -> Q) (x y : Q) :
  guarded_correlation fsqrt [y] = Ok 0%Q
  /\ correlation fsqrt [x] [y] = Raise StatisticsError.
Proof. split; reflexivity. Qed.

Lemma getitem_first_last {A : Type} (x : A) (rest : list A) :
  getitem (x :: rest) 0 = Ok x
  /\ exists y, getitem (x :: rest) (-1) = Ok y.
Proof.
  split; [reflexivity|].
  unfold getitem. cbn [Z.ltb Z.compare].
  destruct (Z.ltb_spec (len (x :: rest) + -1) 0) as [H|H];
    [unfold len in H; cbn [length] in H; lia|].
  destruct (nth_error (x :: rest) (Z.to_nat (len (x :: rest) + -1))) as [y|] eqn:E.
  - now exists y.
  - apply nth_error_None in E. unfold len in E. cbn [length] in E. lia.
Qed.

(** Whatever the sweep, a fastest average of zero makes [analyze_results]
    raise ZeroDivisionError, as soon as the correlation itself is defined. *)
Lemma analyze_results_zero_baseline (fsqrt : Q -> Q) (r : results)
    (x c : Q) (rest : list Q) :
  avg_times (vulnerable r) (sorted (keys (vulnerable r))) = Ok (x :: rest) ->
  Qeq_bool x 0 = true ->
  guarded_correlation fsqrt (x :: rest) = Ok c ->
  analyze_results fsqrt r = Raise ZeroDivisionError.
Proof.
  intros Ht Hx Hc. unfold analyze_results. rewrite Ht. cbn [bind].
  destruct (getitem_first_last x rest) as (H0 & y & Hlast).
  rewrite Hlast, H0, Hc. cbn [bind].
  unfold truediv. now rewrite Hx.
Qed.

(** * Further properties *)

(** ** The comparators *)

(** X1.  [vulnerable_check] never raises and returns [True] exactly when the
    candidate is the secret. *)
Theorem X1_vulnerable_check_decides_equality (S0 C : str) :
  exists b, vulnerable_check {| correct_password := S0 |} C = Ok b
            /\ (b = true <-> C = S0).
Proof. apply vulnerable_check_spec. Qed.

(** X2.  [secure_check] never raises and returns [True] exactly when the
    candidate, padded with NUL up to the secret's length and read up to that
    length, is the secret. *)
Theorem X2_secure_check_compares_padded_prefix (S0 C : str) :
  exists b, secure_check {| correct_password := S0 |} C = Ok b
            /\ (b = true <->
                firstn (length S0) (C ++ repeat NUL (length S0 - length C)) = S0).
Proof.
  destruct (secure_check_spec S0 C) as (b & Hb & Hiff).
  exists b. split; [exact Hb|]. rewrite Hiff.
  unfold compared, ljust, len.
  now replace (Z.to_nat (Z.of_nat (length S0) - Z.of_nat (length C)))
    with (length S0 - length C)%nat by lia.
Qed.

Lemma compared_shorter (S0 C : str) :
  (length C <= length S0)%nat ->
  compared S0 C = C ++ repeat NUL (length S0 - length C).
Proof.
  intros H. unfold compared, ljust, len.
  replace (Z.to_nat (Z.of_nat (length S0) - Z.of_nat (length C)))
    with (length S0 - length C)%nat by lia.
  rewrite <- (firstn_all (C ++ repeat NUL (length S0 - length C))) at 2.
  f_equal. rewrite length_app, repeat_length. lia.
Qed.

(** X3.  On a candidate no longer than the secret, and a secret without NUL
    characters, [secure_check] returns [True] exactly when the candidate is
    the secret. *)
Theorem X3_secure_check_decides_equality (S0 C : str) :
  len C <= len S0 ->
  ~ In NUL S0 ->
  exists b, secure_check {| correct_password := S0 |} C = Ok b
            /\ (b = true <-> C = S0).
Proof.
  intros Hlen Hnul. unfold len in Hlen.
  destruct (secure_check_spec S0 C) as (b & Hb & Hiff).
  exists b. split; [exact Hb|]. rewrite Hiff.
  rewrite compared_shorter by lia.
  destruct (Nat.eq_dec (length C) (length S0)) as [E|E].
  - rewrite E, Nat.sub_diag. cbn [repeat]. now rewrite app_nil_r.
  - split.
    + intros H. exfalso. apply Hnul. rewrite <- H. apply in_or_app. right.
      destruct (length S0 - length C)%nat eqn:D; [lia|]. now left.
    + intros ->. contradiction.
Qed.

(** X3 at the secret "ab" and the candidate "a". *)
Lemma X3_secure_check_decides_equality_witness :
  exists b, secure_check {| correct_password := of_string "ab" |}
              (of_string "a") = Ok b
            /\ (b = true <-> of_string "a" = of_string "ab").
Proof.
  apply (X3_secure_check_decides_equality (of_string "ab") (of_string "a")).
  - vm_compute. discriminate.
  - vm_compute. intros [H|[H|[]]]; discriminate.
Defined.

(** ** The sampler *)

Lemma sample_loop_deltas {A : Type} (func : str -> result A) (arg : str)
    (v : A) :
  func arg = Ok v ->
  forall (idx : list Z) (times : list Z) (w : world),
    sample_loop func arg idx times w
    = Ok (times ++ clock_deltas (clock w) (ticks w) (length idx),
          tick_world w (2 * length idx)).
Proof.
  intros Hf. induction idx as [|i idx IH]; intros times w.
  - cbn. now rewrite app_nil_r, tick_world_0.
  - cbn [sample_loop]. unfold mbind at 1. unfold perf_counter_ns at 1. cbn [bind].
    unfold mbind at 1. unfold lift at 1. rewrite Hf. cbn [bind].
    unfold mbind at 1. unfold perf_counter_ns at 1. cbn [bind ticks clock].
    rewrite IH. cbn [clock ticks length clock_deltas].
    rewrite <- app_assoc. cbn [app]. f_equal. f_equal.
    unfold tick_world. cbn [clock ticks draws sampled]. f_equal. lia.
Qed.

Lemma length_clock_deltas (c : nat -> Z) (n : nat) :
  forall s, length (clock_deltas c s n) = n.
Proof.
  induction n as [|n IH]; intros s; cbn [clock_deltas length];
    [|rewrite IH]; reflexivity.
Qed.

Lemma measure_execution_time_deltas {A : Type}
    (func : str -> result A) (arg : str) (v : A) (iterations : Z) (w : world) :
  func arg = Ok v -> 0 < iterations ->
  let times := clock_deltas (clock w) (ticks w) (Z.to_nat iterations) in
  measure_execution_time func arg iterations w
  = Ok ((Qred (fsum (map inject_Z times) / inject_Z (len (map inject_Z times))),
         times),
        tick_world w (2 * Z.to_nat iterations)).
Proof.
  intros Hf Hpos times.
  unfold measure_execution_time. unfold mbind at 1.
  rewrite (sample_loop_deltas func arg v Hf), length_range. cbn [app bind].
  fold times. unfold mbind, lift.
  assert (Hne : map inject_Z times <> []).
  { intros E. apply (f_equal (@length Q)) in E.
    rewrite length_map in E. unfold times in E.
    rewrite length_clock_deltas in E. cbn in E. lia. }
  rewrite (mean_ok _ Hne). reflexivity.
Qed.

Lemma measure_execution_time_raise {A : Type}
    (func : str -> result A) (arg : str) (iterations : Z) (w : world) :
  0 < iterations ->
  (forall e, func arg = Raise e ->
             measure_execution_time func arg iterations w = Raise e)
  /\ (func arg = Pending ->
      measure_execution_time func arg iterations w = Pending).
Proof.
  intros Hpos. unfold measure_execution_time. unfold mbind at 1 3.
  rewrite range_to_nat.
  destruct (Z.to_nat iterations) as [|n] eqn:E; [lia|].
  cbn [seq map sample_loop]. unfold mbind at 1 4. unfold perf_counter_ns at 1 3.
  cbn [bind]. unfold mbind at 1 3. unfold lift at 1 3.
  split; [intros e Hf|intros Hf]; rewrite Hf; reflexivity.
Qed.

(** X4.  With a positive iteration count [n] and a measured call that
    returns, the sampler returns the [n] differences of the consecutive
    pairs of clock readings, in order, with their mean; it queries the
    clock [2 n] times and touches nothing else. *)
Theorem X4_measure_execution_time_measurements {A : Type}
    (func : str -> result A) (arg : str) (v : A) (iterations : Z) (w : world) :
  func arg = Ok v -> 0 < iterations ->
  let times := clock_deltas (clock w) (ticks w) (Z.to_nat iterations) in
  exists avg,
    measure_execution_time func arg iterations w
    = Ok ((avg, times), tick_world w (2 * Z.to_nat iterations))
    /\ mean (map inject_Z times) = Ok avg
    /\ length times = Z.to_nat iterations.
Proof.
  intros Hf Hpos times.
  rewrite (measure_execution_time_deltas func arg v iterations w Hf Hpos).
  fold times. eexists. split; [reflexivity|].
  split; [|apply length_clock_deltas].
  apply mean_ok. intros E. apply (f_equal (@length Q)) in E.
  rewrite length_map in E. unfold times in E.
  rewrite length_clock_deltas in E. cbn in E. lia.
Qed.

(** X4 around [vulnerable_check], three iterations. *)
Lemma X4_measure_execution_time_measurements_witness :
  let w := demo_world in
  let times := clock_deltas (clock w) (ticks w) (Z.to_nat 3) in
  exists avg,
    measure_execution_time
      (vulnerable_check {| correct_password := of_string "ab" |})
      (of_string "ax") 3 w
    = Ok ((avg, times), tick_world w (2 * Z.to_nat 3))
    /\ mean (map inject_Z times) = Ok avg
    /\ length times = Z.to_nat 3.
Proof.
  apply (X4_measure_execution_time_measurements
           (vulnerable_check {| correct_password := of_string "ab" |})
           (of_string "ax") false 3 demo_world).
  - reflexivity.
  - lia.
Defined.

(** X5.  With a positive iteration count, an exception of the measured call
    leaves the sampler: no measurement is returned. *)
Theorem X5_measure_execution_time_propagates {A : Type}
    (func : str -> result A) (arg : str) (e : exn) (iterations : Z) (w : world) :
  func arg = Raise e -> 0 < iterations ->
  measure_execution_time func arg iterations w = Raise e.
Proof.
  intros Hf Hpos.
  now apply (measure_execution_time_raise func arg iterations w Hpos).
Qed.

(** X5 around an indexing past the end of the argument. *)
Lemma X5_measure_execution_time_propagates_witness :
  measure_execution_time (fun a => getitem a 5) (of_string "ab") 2 demo_world
  = Raise IndexError.
Proof.
  apply (X5_measure_execution_time_propagates
           (fun a => getitem a 5) (of_string "ab") IndexError 2 demo_world).
  - reflexivity.
  - lia.
Defined.

Lemma fold_sum_nonneg (xs : list Q) :
  forall acc : Q,
    (0 <= acc)%Q -> Forall (fun x => 0 <= x)%Q xs ->
    (0 <= fold_left (fun a x => Qred (a + x)) xs acc)%Q.
Proof.
  induction xs as [|x xs IH]; intros acc Hacc Hall; [exact Hacc|].
  inversion Hall as [|? ? Hx Hxs]; subst. cbn [fold_left].
  apply IH; [|exact Hxs]. rewrite Qred_correct.
  rewrite <- (Qplus_0_r 0). now apply Qplus_le_compat.
Qed.

Lemma fsum_nonneg (xs : list Q) :
  Forall (fun x => 0 <= x)%Q xs -> (0 <= fsum xs)%Q.
Proof. apply fold_sum_nonneg. apply Qle_refl. Qed.

Lemma clock_deltas_nonneg (c : nat -> Z) (n : nat) :
  monotone c -> forall s, Forall (fun t => 0 <= t) (clock_deltas c s n).
Proof.
  intros Hc. induction n as [|n IH]; intros s; cbn [clock_deltas]; constructor.
  - specialize (Hc s (S s) ltac:(lia)). lia.
  - apply IH.
Qed.

(** X6.  Under a clock that never runs backwards, no measurement that the
    sampler returns is negative, and neither is their mean. *)
Theorem X6_measurements_are_not_negative {A : Type}
    (func : str -> result A) (arg : str) (iterations : Z) (w w' : world)
    (avg : Q) (times : list Z) :
  monotone (clock w) ->
  measure_execution_time func arg iterations w = Ok ((avg, times), w') ->
  Forall (fun t => 0 <= t) times /\ (0 <= avg)%Q.
Proof.
  intros Hc H.
  destruct (Z_lt_le_dec 0 iterations) as [Hpos|Hneg].
  2:{ rewrite measure_execution_time_no_iterations in H by lia. discriminate. }
  destruct (measure_execution_time_raise func arg iterations w Hpos)
    as [Hraise Hpend].
  destruct (func arg) as [v|e|] eqn:Hf.
  - pose proof (measure_execution_time_deltas func arg v iterations w Hf Hpos)
      as Hm. cbv zeta in Hm. rewrite Hm in H. clear Hm.
    remember (Qred _) as q eqn:Hq in H.
    injection H as <- <- _. subst q.
    assert (Hall : Forall (fun t => 0 <= t)
              (clock_deltas (clock w) (ticks w) (Z.to_nat iterations)))
      by now apply clock_deltas_nonneg.
    split; [exact Hall|].
    rewrite Qred_correct. apply Qle_shift_div_l.
    + unfold len. rewrite length_map, length_clock_deltas.
      change 0%Q with (inject_Z 0). rewrite <- Zlt_Qlt. lia.
    + rewrite Qmult_0_l. apply fsum_nonneg.
      apply Forall_map. eapply Forall_impl; [|exact Hall].
      intros t Ht'. cbn beta. change 0%Q with (inject_Z 0).
      now rewrite <- Zle_Qle.
  - rewrite (Hraise e eq_refl) in H. discriminate.
  - rewrite (Hpend eq_refl) in H. discriminate.
Qed.

(** X6 on a clock that advances by one per query. *)
Lemma X6_measurements_are_not_negative_witness :
  monotone (clock demo_world)
  /\ measure_execution_time
       (secure_check {| correct_password := of_string "ab" |})
       (of_string "ab") 2 demo_world
     = Ok ((1%Q, [1; 1]), tick_world demo_world 4)
  /\ Forall (fun t => 0 <= t) [1; 1] /\ (0 <= 1)%Q.
Proof.
  assert (Hc : monotone (clock demo_world)) by (intros a b Hab; cbn; lia).
  assert (Hm : measure_execution_time
                 (secure_check {| correct_password := of_string "ab" |})
                 (of_string "ab") 2 demo_world
               = Ok ((1%Q, [1; 1]), tick_world demo_world 4))
    by (vm_compute; reflexivity).
  split; [exact Hc|]. split; [exact Hm|].
  exact (X6_measurements_are_not_negative _ _ _ _ _ _ _ Hc Hm).
Defined.

(** ** The attempt generator *)

Lemma pick_chars_in (r : nat) (a : char) : pick chars r = Ok a -> In a chars.
Proof.
  intros H. destruct (pick_chars r) as (a' & Ha & Hn).
  rewrite H in Ha. injection Ha as <-. eapply nth_error_In, Hn.
Qed.

Lemma choice_chars_in (t t' : tape) (a : char) :
  choice chars t = Ok (a, t') -> In a chars.
Proof.
  destruct t as [|r t]; [discriminate|].
  rewrite choice_chars_cons.
  destruct (pick chars r) as [b| |] eqn:E; cbn [bind]; try discriminate.
  intros [= <- _]. now apply (pick_chars_in r).
Qed.

Lemma resample_in (S0 : str) (i : Z) :
  forall (t : tape) (rc rc' : char) (t' : tape),
    In rc chars -> resample S0 i rc t = Ok (rc', t') -> In rc' chars.
Proof.
  induction t as [|r t IH]; intros rc rc' t' Hin; rewrite resample_eq;
    destruct (getitem S0 i) as [c| |]; cbn [bind]; try discriminate;
    destruct (N.eqb rc c); try discriminate.
  - now intros [= <- _].
  - destruct (pick chars r) as [b| |] eqn:E; cbn [bind]; try discriminate.
    apply IH. now apply (pick_chars_in r).
  - now intros [= <- _].
Qed.

(** Whatever the positions, the filling loop appends one character of the
    alphabet per position. *)
Lemma fill_appends (S0 : str) (idx : list Z) :
  forall (attempt : str) (t : tape) (c : str) (t' : tape),
    fill S0 idx attempt t = Ok (c, t') ->
    exists suffix,
      c = attempt ++ suffix /\ length suffix = length idx
      /\ Forall (fun a => In a chars) suffix.
Proof.
  induction idx as [|i idx IH]; intros attempt t c t'; cbn [fill].
  - intros [= <- _]. exists []. now rewrite app_nil_r.
  - destruct (choice chars t) as [[rc t1]| |] eqn:E1; cbn [bind]; try discriminate.
    destruct (resample S0 i rc t1) as [[rc' t2]| |] eqn:E2; cbn [bind];
      try discriminate.
    intros H. destruct (IH _ _ _ _ H) as (suffix & Hc & Hl & Hall).
    exists (rc' :: suffix). split; [now rewrite Hc, <- app_assoc|].
    split; [cbn [length]; now rewrite Hl|].
    constructor; [|exact Hall].
    apply (resample_in S0 i t1 rc rc' t2); [|exact E2].
    now apply (choice_chars_in t t1).
Qed.

(** X7.  Every character that the generator puts at a position from [L] on
    is one of the 62 letters and digits. *)
Theorem X7_generated_characters_are_alphanumeric (S0 c : str) (L : Z)
    (t t' : tape) :
  0 <= L <= len S0 ->
  generate_password_attempts S0 L t = Ok (c, t') ->
  forall i, L <= i < len S0 ->
    exists a, getitem c i = Ok a /\ In a chars.
Proof.
  intros HL H i Hi. unfold len in *.
  unfold generate_password_attempts in H.
  destruct (Z.geb_spec L (len S0)) as [Hge|Hlt]; unfold len in *; [lia|].
  rewrite <- (Z2Nat.id L) in H by lia.
  rewrite slice_to_of_nat, range2_nat in H by lia.
  destruct (fill_appends _ _ _ _ _ _ H) as (suffix & Hc & Hl & Hall).
  rewrite length_map, length_seq in Hl.
  assert (Hf : length (firstn (Z.to_nat L) S0) = Z.to_nat L)
    by (rewrite length_firstn; lia).
  rewrite <- (Z2Nat.id i) by lia. rewrite getitem_of_nat.
  rewrite Hc, nth_error_app2 by lia. rewrite Hf.
  destruct (nth_error suffix (Z.to_nat i - Z.to_nat L)) as [a|] eqn:E.
  - exists a. split; [reflexivity|].
    rewrite Forall_forall in Hall. eapply Hall, nth_error_In, E.
  - apply nth_error_None in E. lia.
Qed.

(** X7 at the secret "abc", the match length 1 and four draws. *)
Lemma X7_generated_characters_are_alphanumeric_witness :
  generate_password_attempts (of_string "abc") 1 [1; 2; 3; 4]%nat
  = Ok (of_string "acd", [4]%nat)
  /\ forall i, 1 <= i < len (of_string "abc") ->
       exists a, getitem (of_string "acd") i = Ok a /\ In a chars.
Proof.
  split; [reflexivity|].
  apply (X7_generated_characters_are_alphanumeric
           (of_string "abc") (of_string "acd") 1 [1; 2; 3; 4]%nat [4]%nat).
  - vm_compute. split; discriminate.
  - reflexivity.
Defined.

Lemma checks_reject (S0 c : str) :
  length c = length S0 -> c <> S0 ->
  vulnerable_check {| correct_password := S0 |} c = Ok false
  /\ secure_check {| correct_password := S0 |} c = Ok false.
Proof.
  intros Hlen Hne. split.
  - destruct (vulnerable_check_spec S0 c) as (b & Hb & Hiff).
    rewrite Hb. f_equal. destruct b; [|reflexivity].
    exfalso. now apply Hne, Hiff.
  - destruct (secure_check_spec S0 c) as (b & Hb & Hiff).
    rewrite compared_same_length in Hiff by exact Hlen.
    rewrite Hb. f_equal. destruct b; [|reflexivity].
    exfalso. now apply Hne, Hiff.
Qed.

Lemma checks_accept (S0 : str) :
  vulnerable_check {| correct_password := S0 |} S0 = Ok true
  /\ secure_check {| correct_password := S0 |} S0 = Ok true.
Proof.
  split.
  - destruct (vulnerable_check_spec S0 S0) as (b & Hb & Hiff).
    rewrite Hb. f_equal. now apply Hiff.
  - destruct (secure_check_spec S0 S0) as (b & Hb & Hiff).
    rewrite Hb. f_equal. apply Hiff. now apply compared_same_length.
Qed.

(** X8.  A candidate generated for a match length [L] below the secret's
    length is rejected by both comparators; for [L] at or beyond that
    length the generator returns the secret itself without a draw, and both
    comparators accept it. *)
Theorem X8_generated_attempts_and_the_checks (S0 c : str) (L : Z)
    (t t' : tape) :
  0 <= L ->
  generate_password_attempts S0 L t = Ok (c, t') ->
  (L < len S0 ->
     vulnerable_check {| correct_password := S0 |} c = Ok false
     /\ secure_check {| correct_password := S0 |} c = Ok false)
  /\ (len S0 <= L ->
        c = S0 /\ t' = t
        /\ vulnerable_check {| correct_password := S0 |} c = Ok true
        /\ secure_check {| correct_password := S0 |} c = Ok true).
Proof.
  intros HL H. split.
  - intros Hlt. unfold len in Hlt.
    pose proof (generate_runs S0 (Z.to_nat L) t ltac:(lia)) as HR.
    rewrite Z2Nat.id in HR by lia. rewrite H in HR. cbn [runs] in HR.
    destruct HR as (((Hlen & _ & Hdiff) & _) & _).
    apply checks_reject; [exact Hlen|].
    intros ->. apply (Hdiff (Z.to_nat L)); [lia|reflexivity].
  - intros Hge. unfold generate_password_attempts in H.
    destruct (Z.geb_spec L (len S0)) as [_|Hlt]; [|lia].
    injection H as <- <-. split; [reflexivity|]. split; [reflexivity|].
    apply checks_accept.
Qed.

(** X8 at the secret "abc" and the match length 1. *)
Lemma X8_generated_attempts_and_the_checks_witness :
  generate_password_attempts (of_string "abc") 1 [1; 2; 3; 4]%nat
  = Ok (of_string "acd", [4]%nat)
  /\ (1 < len (of_string "abc") ->
        vulnerable_check {| correct_password := of_string "abc" |}
          (of_string "acd") = Ok false
        /\ secure_check {| correct_password := of_string "abc" |}
             (of_string "acd") = Ok false)
  /\ (len (of_string "abc") <= 1 ->
        of_string "acd" = of_string "abc" /\ [4]%nat = [1; 2; 3; 4]%nat
        /\ vulnerable_check {| correct_password := of_string "abc" |}
             (of_string "acd") = Ok true
        /\ secure_check {| correct_password := of_string "abc" |}
             (of_string "acd") = Ok true).
Proof.
  split; [reflexivity|].
  apply (X8_generated_attempts_and_the_checks
           (of_string "abc") (of_string "acd") 1 [1; 2; 3; 4]%nat [4]%nat).
  - lia.
  - reflexivity.
Defined.

(** X9.  For a negative match length [L] with [-|S0| <= L] the generator
    keeps the first [|S0| + L] characters of the secret and fills the
    positions [L .. |S0| - 1]: a candidate it returns is twice as long as
    the secret. *)
Theorem X9_negative_match_length_doubles (S0 c : str) (L : Z) (t t' : tape) :
  - len S0 <= L < 0 ->
  generate_password_attempts S0 L t = Ok (c, t') ->
  len c = 2 * len S0.
Proof.
  intros HL H. unfold generate_password_attempts in H.
  destruct (Z.geb_spec L (len S0)) as [Hge|_]; [unfold len in *; lia|].
  destruct (fill_appends _ _ _ _ _ _ H) as (suffix & Hc & Hl & _).
  unfold range2 in Hl. rewrite length_map, length_seq in Hl.
  unfold len in *. rewrite Hc, length_app, Hl.
  unfold slice_to. destruct (Z.ltb_spec L 0) as [_|?]; [|lia].
  rewrite length_firstn. unfold len. lia.
Qed.

(** X9 at the secret "abc" and the match length -1. *)
Lemma X9_negative_match_length_doubles_witness :
  generate_password_attempts (of_string "abc") (-1) [1; 2; 2; 3]%nat
  = Ok (of_string "abbccd", [])
  /\ len (of_string "abbccd") = 2 * len (of_string "abc").
Proof.
  split; [reflexivity|].
  apply (X9_negative_match_length_doubles
           (of_string "abc") (of_string "abbccd") (-1) [1; 2; 2; 3]%nat []).
  - vm_compute. split; [discriminate|reflexivity].
  - reflexivity.
Defined.

(** X10.  For a match length below [-|S0|] the first read of
    [correct_password[i]] is out of range: the generator raises IndexError
    after its first draw. *)
Theorem X10_match_length_out_of_range (S0 : str) (L : Z) (r : nat) (t : tape) :
  L < - len S0 ->
  generate_password_attempts S0 L (r :: t) = Raise IndexError.
Proof.
  intros HL. unfold generate_password_attempts.
  destruct (Z.geb_spec L (len S0)) as [Hge|_]; [unfold len in *; lia|].
  unfold range2.
  destruct (Z.to_nat (len S0 - L)) as [|n] eqn:E; [unfold len in *; lia|].
  cbn [seq map fill]. rewrite choice_chars_cons.
  destruct (pick_chars r) as (rc & Hp & _). rewrite Hp. cbn [bind].
  rewrite resample_eq.
  assert (Hg : getitem S0 (L + Z.of_nat 0) = Raise IndexError).
  { unfold getitem. cbn [Z.of_nat]. rewrite Z.add_0_r.
    destruct (Z.ltb_spec L 0) as [_|?]; [|unfold len in *; lia].
    destruct (Z.ltb_spec (len S0 + L) 0) as [_|?]; [reflexivity|lia]. }
  rewrite Hg. reflexivity.
Qed.

(** X10 at the secret "abc" and the match length -4. *)
Lemma X10_match_length_out_of_range_witness :
  generate_password_attempts (of_string "abc") (-4) [7; 8]%nat
  = Raise IndexError.
Proof.
  apply (X10_match_length_out_of_range (of_string "abc") (-4) 7%nat [8]%nat).
  vm_compute. reflexivity.
Defined.

(** ** The experiment runner *)

Lemma dict_set_fresh {V : Type} (d : dict V) (k : Z) (v : V) :
  ~ In k (keys d) -> dict_set d k v = d ++ [(k, v)].
Proof.
  induction d as [|[k' v'] d IH]; intros Hk; [reflexivity|].
  cbn [dict_set]. cbn [keys map fst In] in Hk.
  destruct (Z.eqb_spec k' k) as [->|Hne]; [tauto|].
  cbn [app]. f_equal. apply IH. unfold keys. tauto.
Qed.

Lemma keys_app {V : Type} (d1 d2 : dict V) : keys (d1 ++ d2) = keys d1 ++ keys d2.
Proof. apply map_app. Qed.

Lemma keys_combine {V : Type} (ks : list Z) (vs : list V) :
  length vs = length ks -> keys (combine ks vs) = ks.
Proof.
  revert vs. induction ks as [|k ks IH]; intros [|v vs] H; try discriminate;
    [reflexivity|].
  cbn [combine keys map fst]. f_equal. apply IH. now injection H.
Qed.

(** Assignments under fresh, pairwise distinct keys append, in order. *)
Lemma fold_dict_set_fresh {V : Type} (ks : list Z) :
  forall (vs : list V) (d : dict V),
    NoDup ks -> (forall k, In k ks -> ~ In k (keys d)) ->
    length vs = length ks ->
    fold_left (fun acc p => dict_set acc (fst p) (snd p)) (combine ks vs) d
    = d ++ combine ks vs.
Proof.
  induction ks as [|k ks IH]; intros [|v vs] d Hnd Hfresh Hlen;
    try discriminate; [now rewrite app_nil_r|].
  inversion Hnd as [|? ? Hk Hks]; subst.
  cbn [combine fold_left fst snd].
  rewrite dict_set_fresh by (apply Hfresh; now left).
  rewrite IH; [now rewrite <- app_assoc|exact Hks| |now injection Hlen].
  intros k' Hin. rewrite keys_app. cbn [keys map fst].
  intros Hin'. apply in_app_or in Hin' as [Hin'|[<-|[]]].
  - apply (Hfresh k'); [now right|exact Hin'].
  - contradiction.
Qed.

Lemma NoDup_range (z : Z) : NoDup (range z).
Proof.
  rewrite range_to_nat. generalize (seq_NoDup (Z.to_nat z) 0).
  generalize (seq 0 (Z.to_nat z)) as l.
  induction l as [|x l IH]; intros Hnd; [constructor|].
  inversion Hnd as [|? ? Hx Hl]; subst. cbn [map]. constructor; [|now apply IH].
  intros Hin. apply in_map_iff in Hin as (y & Hy & Hin).
  apply Nat2Z.inj in Hy. now subst.
Qed.

(** What a sweep stores: one consistent entry per match length, assigned in
    order. *)
Lemma sweep_entries (fsqrt : Q -> Q) (checker : PasswordChecker) (s : strategy)
    (idx : list Z) :
  forall (d d' : dict entry) (w w' : world),
    sweep fsqrt checker s idx d w = Ok (d', w') ->
    exists es,
      length es = length idx
      /\ Forall (entry_ok fsqrt) es
      /\ d' = fold_left (fun acc p => dict_set acc (fst p) (snd p))
                (combine idx es) d.
Proof.
  induction idx as [|i idx IH]; intros d d' w w'.
  - cbn [sweep ret]. intros [= <- _]. exists []. repeat split. constructor.
  - cbn [sweep]. unfold mbind at 1. unfold with_random at 1.
    destruct (generate_password_attempts (correct_password checker) i (draws w))
      as [[a t1]| |]; cbn [bind]; try discriminate.
    unfold mbind at 1. unfold note at 1. cbn [bind].
    destruct (method_total s checker a) as (b & Hb).
    unfold mbind at 1.
    match goal with |- context [measure_execution_time _ a 1000 ?w2] =>
      destruct (measure_execution_time_ok (method s checker) a b 1000 w2 Hb
                  ltac:(lia)) as (times & Hm & Hlt);
      rewrite Hm
    end.
    cbn [bind]. unfold mbind at 1. unfold lift at 1.
    destruct (stdev fsqrt (map inject_Z times)) as [sd| |] eqn:Hsd; cbn [bind];
      try discriminate.
    intros H. destruct (IH _ _ _ _ H) as (es & Hlen & Hall & Hd).
    eexists (_ :: es). split; [cbn [length]; now rewrite Hlen|].
    split; [|exact Hd].
    constructor; [|exact Hall].
    unfold entry_ok. cbn [all_times avg_time std_dev].
    split; [rewrite Hlt; reflexivity|]. split; [|exact Hsd].
    rewrite mean_ok.
    + unfold len. now rewrite length_map.
    + destruct times; [discriminate|discriminate].
Qed.

Lemma choices_loop_in (k : nat) :
  forall (t t' : tape) (pwd : str),
    choices_loop chars k t = Ok (pwd, t') ->
    length pwd = k /\ Forall (fun a => In a chars) pwd.
Proof.
  induction k as [|k IH]; intros t t' pwd; cbn [choices_loop].
  - intros [= <- _]. split; [reflexivity|constructor].
  - destruct (choice chars t) as [[a t1]| |] eqn:E; cbn [bind]; try discriminate.
    destruct (choices_loop chars k t1) as [[rest t2]| |] eqn:E2; cbn [bind];
      try discriminate.
    intros [= <- _]. destruct (IH _ _ _ E2) as (Hl & Hall).
    split; [cbn [length]; now rewrite Hl|].
    constructor; [now apply (choice_chars_in t t1)|exact Hall].
Qed.

(** The results of a run: per strategy, the match lengths [0 .. n] in order,
    each with a consistent entry; and the secret drawn. *)
Lemma timing_attack_simulation_results (fsqrt : Q -> Q) (n : Z)
    (w w' : world) (r : results) (pwd : str) :
  timing_attack_simulation fsqrt n w = Ok ((r, pwd), w') ->
  exists ve se,
    vulnerable r = combine (range (n + 1)) ve
    /\ secure r = combine (range (n + 1)) se
    /\ length ve = length (range (n + 1))
    /\ length se = length (range (n + 1))
    /\ Forall (entry_ok fsqrt) ve
    /\ Forall (entry_ok fsqrt) se
    /\ length pwd = Z.to_nat n
    /\ Forall (fun a => In a chars) pwd.
Proof.
  unfold timing_attack_simulation. unfold mbind at 1. unfold with_random at 1.
  unfold choices.
  destruct (choices_loop chars (Z.to_nat n) (draws w)) as [[p t1]| |] eqn:Ec;
    cbn [bind]; try discriminate.
  unfold mbind at 1.
  match goal with |- context [sweep fsqrt ?c Vulnerable ?ix [] ?w1] =>
    destruct (sweep fsqrt c Vulnerable ix [] w1) as [[vuln w2]| |] eqn:E1
  end; cbn [bind]; try discriminate.
  unfold mbind at 1.
  match goal with |- context [sweep fsqrt ?c Secure ?ix [] ?w1] =>
    destruct (sweep fsqrt c Secure ix [] w1) as [[sec w3]| |] eqn:E2
  end; cbn [bind ret]; try discriminate.
  intros [= <- <- _].
  destruct (sweep_entries _ _ _ _ _ _ _ _ E1) as (ve & Hlv & Hav & Hdv).
  destruct (sweep_entries _ _ _ _ _ _ _ _ E2) as (se & Hls & Has & Hds).
  destruct (choices_loop_in _ _ _ _ Ec) as (Hlp & Hap).
  rewrite fold_dict_set_fresh in Hdv, Hds;
    try apply NoDup_range; try assumption; try (intros k _ []).
  exists ve, se. cbn [vulnerable secure]. now repeat split.
Qed.

(** X11.  When a run returns, both sweeps are keyed by the match lengths
    [0 .. n], each exactly once and in increasing order, whatever the
    secret length [n]. *)
Theorem X11_sweeps_are_keyed_by_match_length (fsqrt : Q -> Q) (n : Z)
    (w w' : world) (r : results) (pwd : str) :
  timing_attack_simulation fsqrt n w = Ok ((r, pwd), w') ->
  keys (vulnerable r) = range (n + 1)
  /\ keys (secure r) = range (n + 1)
  /\ password_length r = n.
Proof.
  intros H.
  destruct (timing_attack_simulation_results _ _ _ _ _ _ H)
    as (ve & se & Hv & Hs & Hlv & Hls & _).
  rewrite Hv, Hs, !keys_combine by assumption.
  split; [reflexivity|]. split; [reflexivity|].
  pose proof (timing_attack_simulation_runs fsqrt n w) as HR.
  rewrite H in HR. cbn [wruns fst snd] in HR. tauto.
Qed.

(** A run on [demo_world] with a secret of length 1: the secret is "a". *)
Lemma demo_run :
  exists r w',
    timing_attack_simulation sqrt_floor53 1 demo_world
    = Ok ((r, of_string "a"), w').
Proof. eexists _, _. vm_compute. reflexivity. Qed.

(** X11 on a run with a secret of length 1. *)
Lemma X11_sweeps_are_keyed_by_match_length_witness :
  exists r w',
    timing_attack_simulation sqrt_floor53 1 demo_world
    = Ok ((r, of_string "a"), w')
    /\ keys (vulnerable r) = range (1 + 1)
    /\ keys (secure r) = range (1 + 1)
    /\ password_length r = 1.
Proof.
  destruct demo_run as (r & w' & H).
  exists r, w'. split; [exact H|].
  exact (X11_sweeps_are_keyed_by_match_length _ _ _ _ _ _ H).
Defined.

Lemma Forall_combine_snd {A B : Type} (P : B -> Prop) (ks : list A)
    (vs : list B) :
  Forall P vs -> Forall (fun kv => P (snd kv)) (combine ks vs).
Proof.
  revert vs. induction ks as [|k ks IH]; intros vs H; [constructor|].
  destruct vs as [|v vs]; [constructor|].
  inversion H; subst. cbn [combine]. constructor; [assumption|now apply IH].
Qed.

(** X12.  When a run returns, every entry of both sweeps holds exactly 1000
    measurements, and its [avg_time] and [std_dev] are the mean and the
    standard deviation of those measurements. *)
Theorem X12_entries_are_consistent (fsqrt : Q -> Q) (n : Z)
    (w w' : world) (r : results) (pwd : str) :
  timing_attack_simulation fsqrt n w = Ok ((r, pwd), w') ->
  Forall (fun kv => entry_ok fsqrt (snd kv)) (vulnerable r)
  /\ Forall (fun kv => entry_ok fsqrt (snd kv)) (secure r).
Proof.
  intros H.
  destruct (timing_attack_simulation_results _ _ _ _ _ _ H)
    as (ve & se & Hv & Hs & _ & _ & Hav & Has & _).
  rewrite Hv, Hs. split; now apply Forall_combine_snd.
Qed.

(** X12 on a run with a secret of length 1. *)
Lemma X12_entries_are_consistent_witness :
  exists r w',
    timing_attack_simulation sqrt_floor53 1 demo_world
    = Ok ((r, of_string "a"), w')
    /\ Forall (fun kv => entry_ok sqrt_floor53 (snd kv)) (vulnerable r)
    /\ Forall (fun kv => entry_ok sqrt_floor53 (snd kv)) (secure r).
Proof.
  destruct demo_run as (r & w' & H).
  exists r, w'. split; [exact H|].
  exact (X12_entries_are_consistent _ _ _ _ _ _ H).
Defined.

(** X13.  When a run returns, the secret it drew has [max(n, 0)] characters,
    all of them letters or digits; the run has queried the clock
    [4000 * max(n + 1, 0)] times and used a prefix of the draws. *)
Theorem X13_secret_and_cost_of_a_run (fsqrt : Q -> Q) (n : Z)
    (w w' : world) (r : results) (pwd : str) :
  timing_attack_simulation fsqrt n w = Ok ((r, pwd), w') ->
  len pwd = Z.max n 0
  /\ Forall (fun a => In a chars) pwd
  /\ Z.of_nat (ticks w') = Z.of_nat (ticks w) + 4000 * Z.max (n + 1) 0
  /\ exists used, draws w = used ++ draws w'.
Proof.
  intros H.
  destruct (timing_attack_simulation_results _ _ _ _ _ _ H)
    as (_ & _ & _ & _ & _ & _ & _ & _ & Hlp & Hap).
  pose proof (timing_attack_simulation_runs fsqrt n w) as HR.
  rewrite H in HR. cbn [wruns fst snd] in HR.
  destruct HR as (_ & (_ & _ & Htk & _) & used & Hu & _).
  split; [unfold len; lia|]. split; [exact Hap|].
  split; [lia|now exists used].
Qed.

(** X13 on a run with a secret of length 1. *)
Lemma X13_secret_and_cost_of_a_run_witness :
  exists r w',
    timing_attack_simulation sqrt_floor53 1 demo_world
    = Ok ((r, of_string "a"), w')
    /\ len (of_string "a") = Z.max 1 0
    /\ Forall (fun a => In a chars) (of_string "a")
    /\ Z.of_nat (ticks w') = Z.of_nat (ticks demo_world) + 4000 * Z.max (1 + 1) 0
    /\ exists used, draws demo_world = used ++ draws w'.
Proof.
  destruct demo_run as (r & w' & H).
  exists r, w'. split; [exact H|].
  exact (X13_secret_and_cost_of_a_run _ _ _ _ _ _ H).
Defined.

(** ** The analyzer and the data read for the plots *)

Lemma insert_sorted_in (k x : Z) (l : list Z) :
  In x (insert_sorted k l) <-> x = k \/ In x l.
Proof.
  induction l as [|y l IH]; cbn [insert_sorted In]; [intuition congruence|].
  destruct (k <=? y); cbn [In]; [intuition congruence|].
  rewrite IH. intuition congruence.
Qed.

Lemma sorted_in (x : Z) (l : list Z) : In x (sorted l) <-> In x l.
Proof.
  unfold sorted. induction l as [|y l IH]; cbn [fold_right In]; [tauto|].
  rewrite insert_sorted_in, IH. intuition congruence.
Qed.

Lemma length_insert_sorted (k : Z) (l : list Z) :
  length (insert_sorted k l) = S (length l).
Proof.
  induction l as [|y l IH]; cbn [insert_sorted length]; [reflexivity|].
  destruct (k <=? y); cbn [length]; [reflexivity|now rewrite IH].
Qed.

Lemma length_sorted (l : list Z) : length (sorted l) = length l.
Proof.
  unfold sorted. induction l as [|y l IH]; cbn [fold_right length];
    [reflexivity|].
  now rewrite length_insert_sorted, IH.
Qed.

(** A list of consecutive integers is left as it is by [sorted]. *)
Lemma sorted_consecutive (k : nat) :
  forall s : nat, sorted (map Z.of_nat (seq s k)) = map Z.of_nat (seq s k).
Proof.
  unfold sorted. induction k as [|k IH]; intros s; [reflexivity|].
  cbn [seq map fold_right]. rewrite IH.
  destruct k as [|k]; [reflexivity|].
  cbn [seq map insert_sorted].
  destruct (Z.leb_spec (Z.of_nat s) (Z.of_nat (S s))); [reflexivity|lia].
Qed.

Lemma sorted_range (z : Z) : sorted (range z) = range z.
Proof. rewrite range_to_nat. apply sorted_consecutive. Qed.

Lemma dict_get_cases {V : Type} (d : dict V) (k : Z) :
  (In k (keys d) -> exists v, dict_get d k = Ok v /\ In (k, v) d)
  /\ (~ In k (keys d) -> dict_get d k = Raise KeyError).
Proof.
  induction d as [|[k' v'] d IH]; cbn [dict_get keys map fst In].
  - split; [intros []|reflexivity].
  - destruct (Z.eqb_spec k' k) as [->|Hne].
    + split; [intros _; exists v'; split; [reflexivity|now left]|tauto].
    + destruct IH as [IH1 IH2]. split.
      * intros [H|H]; [contradiction|].
        destruct (IH1 H) as (v & Hv & Hin). exists v. split; [exact Hv|now right].
      * intros H. apply IH2. unfold keys. tauto.
Qed.

(** The averages under the keys [ks]: defined when every key is present,
    KeyError otherwise. *)
Lemma avg_times_cases (d : dict entry) (ks : list Z) :
  (Forall (fun k => In k (keys d)) ks ->
     exists l, avg_times d ks = Ok l /\ length l = length ks)
  /\ (~ Forall (fun k => In k (keys d)) ks ->
        avg_times d ks = Raise KeyError).
Proof.
  induction ks as [|k ks [IH1 IH2]]; cbn [avg_times].
  - split; [intros _; now exists []|intros H; exfalso; apply H; constructor].
  - destruct (dict_get_cases d k) as [Hin Hout]. split.
    + intros H. inversion H as [|? ? Hk Hks]; subst.
      destruct (Hin Hk) as (v & Hv & _). rewrite Hv. cbn [bind].
      destruct (IH1 Hks) as (l & Hl & Hlen). rewrite Hl. cbn [bind].
      eexists. split; [reflexivity|]. cbn [length]. now rewrite Hlen.
    + intros H. destruct (in_dec Z.eq_dec k (keys d)) as [Hk|Hk].
      * destruct (Hin Hk) as (v & Hv & _). rewrite Hv. cbn [bind].
        rewrite IH2; [reflexivity|]. intros Hks. apply H. now constructor.
      * now rewrite (Hout Hk).
Qed.

Lemma avg_times_own_keys (d : dict entry) :
  exists l, avg_times d (sorted (keys d)) = Ok l /\ length l = length d.
Proof.
  destruct (avg_times_cases d (sorted (keys d))) as [H _].
  destruct H as (l & Hl & Hlen).
  - apply Forall_forall. intros k Hk. exact (proj1 (sorted_in k (keys d)) Hk).
  - exists l. split; [exact Hl|].
    rewrite Hlen, length_sorted. unfold keys. apply length_map.
Qed.

(** X14.  [analyze_results] raises IndexError on a sweep without points, and
    this is what a run with a negative secret length returns: the run
    completes with two empty sweeps, and the analysis of its results
    raises. *)
Theorem X14_negative_length_fails_in_the_analyzer (fsqrt : Q -> Q) (n : Z)
    (w : world) :
  n < 0 ->
  exists r w',
    timing_attack_simulation fsqrt n w = Ok ((r, []), w')
    /\ vulnerable r = [] /\ secure r = []
    /\ analyze_results fsqrt r = Raise IndexError.
Proof.
  intros Hn.
  pose proof (timing_attack_simulation_runs fsqrt n w) as HR.
  replace (Z.to_nat n) with 0%nat in HR by lia.
  destruct (timing_attack_simulation fsqrt n w) as [[[r pwd] w']| |] eqn:E;
    cbn [wruns fst snd] in HR; [|contradiction|cbn in HR; lia].
  destruct HR as (_ & (Hlen & _) & _).
  destruct pwd; [|discriminate].
  destruct (timing_attack_simulation_results _ _ _ _ _ _ E)
    as (ve & se & Hv & Hs & _).
  rewrite range_nonpos in Hv, Hs by lia. cbn [combine] in Hv, Hs.
  exists r, w'. split; [reflexivity|]. split; [exact Hv|]. split; [exact Hs|].
  unfold analyze_results. rewrite Hv. reflexivity.
Qed.

(** X14 at the secret length -1. *)
Lemma X14_negative_length_fails_in_the_analyzer_witness :
  exists r w',
    timing_attack_simulation sqrt_floor53 (-1) demo_world = Ok ((r, []), w')
    /\ vulnerable r = [] /\ secure r = []
    /\ analyze_results sqrt_floor53 r = Raise IndexError.
Proof.
  apply (X14_negative_length_fails_in_the_analyzer sqrt_floor53 (-1) demo_world).
  lia.
Defined.




(** X15.  On sweeps of a single point each, whose averages are not zero,
    [analyze_results] returns: both correlations are 0 without a call of
    [statistics.correlation], both percentages are 0, and the verdicts read
    POSSIBLY VULNERABLE and SECURE. *)
Theorem X15_single_point_analysis (fsqrt : Q -> Q) (r : results)
    (k1 k2 : Z) (e1 e2 : entry) :
  vulnerable r = [(k1, e1)] ->
  secure r = [(k2, e2)] ->
  ~ (avg_time e1 == 0)%Q ->
  ~ (avg_time e2 == 0)%Q ->
  exists a,
    analyze_results fsqrt r
    = Ok (["POSSIBLY VULNERABLE"%string; "SECURE"%string], a)
    /\ vulnerable_correlation a = 0%Q
    /\ secure_correlation a = 0%Q
    /\ (time_increase_percentage a == 0)%Q
    /\ (secure_variance_percentage a == 0)%Q.
Proof.
  intros Hv Hs H1 H2.
  assert (B1 : Qeq_bool (avg_time e1) 0 = false).
  { destruct (Qeq_bool (avg_time e1) 0) eqn:E; [|reflexivity].
    apply Qeq_bool_iff in E. contradiction. }
  assert (B2 : Qeq_bool (avg_time e2) 0 = false).
  { destruct (Qeq_bool (avg_time e2) 0) eqn:E; [|reflexivity].
    apply Qeq_bool_iff in E. contradiction. }
  unfold analyze_results. rewrite Hv, Hs.
  cbn [keys map fst sorted fold_right insert_sorted avg_times dict_get].
  rewrite !Z.eqb_refl. cbn [bind].
  change (getitem [avg_time e1] (-1)) with (Ok (avg_time e1)).
  change (getitem [avg_time e1] 0) with (Ok (avg_time e1)).
  change (guarded_correlation fsqrt [avg_time e1]) with (Ok 0%Q).
  change (guarded_correlation fsqrt [avg_time e2]) with (Ok 0%Q).
  change (py_max [avg_time e2]) with (Ok (avg_time e2)).
  change (py_min [avg_time e2]) with (Ok (avg_time e2)).
  cbn [bind]. unfold truediv. rewrite B1, B2. cbn [bind].
  eexists. split; [reflexivity|].
  cbn [vulnerable_correlation secure_correlation time_increase_percentage
       secure_variance_percentage].
  split; [reflexivity|]. split; [reflexivity|].
  split; field; assumption.
Qed.

(** X15 on two one-point sweeps with the averages 5 and 7. *)
Lemma X15_single_point_analysis_witness :
  let e1 := {| avg_time := 5; std_dev := 0; all_times := [5; 5] |} in
  let e2 := {| avg_time := 7; std_dev := 0; all_times := [7; 7] |} in
  let r := {| vulnerable := [(0, e1)]; secure := [(0, e2)];
              password_length := 0 |} in
  exists a,
    analyze_results sqrt_floor53 r
    = Ok (["POSSIBLY VULNERABLE"%string; "SECURE"%string], a)
    /\ vulnerable_correlation a = 0%Q
    /\ secure_correlation a = 0%Q
    /\ (time_increase_percentage a == 0)%Q
    /\ (secure_variance_percentage a == 0)%Q.
Proof.
  cbv zeta.
  apply (X15_single_point_analysis sqrt_floor53 _ 0 0
           {| avg_time := 5; std_dev := 0; all_times := [5; 5] |}
           {| avg_time := 7; std_dev := 0; all_times := [7; 7] |});
    try reflexivity; discriminate.
Defined.



(** The series of [create_overlay_plot], by the keys of the two sweeps. *)
Lemma create_overlay_plot_series_cases (r : results) :
  (incl (keys (vulnerable r)) (keys (secure r)) ->
     exists vt st,
       create_overlay_plot_series r
       = Ok (sorted (keys (vulnerable r)), vt, st)
       /\ length vt = length (vulnerable r)
       /\ length st = length (vulnerable r))
  /\ (~ incl (keys (vulnerable r)) (keys (secure r)) ->
        create_overlay_plot_series r = Raise KeyError).
Proof.
  unfold create_overlay_plot_series.
  destruct (avg_times_own_keys (vulnerable r)) as (vt & Hvt & Hlv).
  rewrite Hvt. cbn [bind].
  destruct (avg_times_cases (secure r) (sorted (keys (vulnerable r))))
    as [Hin Hout].
  assert (Hiff : Forall (fun k => In k (keys (secure r)))
                   (sorted (keys (vulnerable r)))
                 <-> incl (keys (vulnerable r)) (keys (secure r))).
  { rewrite Forall_forall. unfold incl. split; intros H k Hk; apply H.
    - exact (proj2 (sorted_in k (keys (vulnerable r))) Hk).
    - exact (proj1 (sorted_in k (keys (vulnerable r))) Hk). }
  split.
  - intros Hincl. destruct (Hin (proj2 Hiff Hincl)) as (st & Hst & Hls).
    rewrite Hst. cbn [bind]. exists vt, st. split; [reflexivity|].
    split; [exact Hlv|].
    rewrite Hls, length_sorted. unfold keys. apply length_map.
  - intros Hn. rewrite Hout; [reflexivity|].
    intros H. apply Hn. now apply Hiff.
Qed.


(** X17.  [create_overlay_plot] looks the averages of the constant-time sweep
    up under the match lengths of the early-exit sweep: when all of these are
    keys of the constant-time sweep, the three series exist and have one
    point per match length, in increasing order of match length; otherwise
    the function raises KeyError. *)
Theorem X17_overlay_series (r : results) :
  (incl (keys (vulnerable r)) (keys (secure r)) ->
     exists vt st,
       create_overlay_plot_series r
       = Ok (sorted (keys (vulnerable r)), vt, st)
       /\ length vt = length (vulnerable r)
       /\ length st = length (vulnerable r))
  /\ (~ incl (keys (vulnerable r)) (keys (secure r)) ->
        create_overlay_plot_series r = Raise KeyError).
Proof. apply create_overlay_plot_series_cases. Qed.

(** X18.  On the results of a run, the series of [create_overlay_plot] exist:
    the match lengths are [0 .. n] and each series has one average per match
    length. *)
Theorem X18_overlay_series_of_a_run (fsqrt : Q -> Q) (n : Z)
    (w w' : world) (r : results) (pwd : str) :
  timing_attack_simulation fsqrt n w = Ok ((r, pwd), w') ->
  exists vt st,
    create_overlay_plot_series r = Ok (range (n + 1), vt, st)
    /\ length vt = length (range (n + 1))
    /\ length st = length (range (n + 1)).
Proof.
  intros H.
  destruct (timing_attack_simulation_results _ _ _ _ _ _ H)
    as (ve & se & Hv & Hs & Hlv & Hls & _).
  assert (Kv : keys (vulnerable r) = range (n + 1))
    by (rewrite Hv; now apply keys_combine).
  assert (Ks : keys (secure r) = range (n + 1))
    by (rewrite Hs; now apply keys_combine).
  destruct (create_overlay_plot_series_cases r) as [Hok _].
  destruct Hok as (vt & st & Hser & H1 & H2).
  - rewrite Kv, Ks. apply incl_refl.
  - rewrite Kv, sorted_range in Hser. exists vt, st.
    split; [exact Hser|].
    assert (Hl : length (vulnerable r) = length (range (n + 1))).
    { rewrite <- Kv. unfold keys. now rewrite length_map. }
    now rewrite H1, H2, Hl.
Qed.

(** X18 on a run with a secret of length 1. *)
Lemma X18_overlay_series_of_a_run_witness :
  exists r w',
    timing_attack_simulation sqrt_floor53 1 demo_world
    = Ok ((r, of_string "a"), w')
    /\ exists vt st,
         create_overlay_plot_series r = Ok (range (1 + 1), vt, st)
         /\ length vt = length (range (1 + 1))
         /\ length st = length (range (1 + 1)).
Proof.
  destruct demo_run as (r & w' & H).
  exists r, w'. split; [exact H|].
  exact (X18_overlay_series_of_a_run _ _ _ _ _ _ H).
Defined.

(** ** The summary written to the results file *)

Lemma dict_get_map {V W : Type} (f : V -> W) (d : dict V) (k : Z) :
  dict_get (map (fun kv => (fst kv, f (snd kv))) d) k
  = (v <- dict_get d k ;; Ok (f v)).
Proof.
  induction d as [|[k' v'] d IH]; [reflexivity|].
  cbn [map dict_get fst snd]. destruct (k' =? k); [reflexivity|exact IH].
Qed.

Lemma serialize_items_fresh (items : list (Z * entry)) :
  forall out : dict summary,
    NoDup (keys items) ->
    (forall k, In k (keys items) -> ~ In k (keys out)) ->
    serialize_items items out
    = out ++ map (fun kv => (fst kv, summary_of (snd kv))) items.
Proof.
  induction items as [|[k v] items IH]; intros out Hnd Hfresh;
    [now rewrite app_nil_r|].
  cbn [keys map fst] in Hnd. inversion Hnd as [|? ? Hk Hks]; subst.
  cbn [serialize_items map fst snd].
  rewrite dict_set_fresh by (apply Hfresh; now left).
  rewrite IH; [now rewrite <- app_assoc|exact Hks|].
  intros k' Hin. rewrite keys_app. cbn [keys map fst].
  intros Hin'. apply in_app_or in Hin' as [Hin'|[<-|[]]].
  - apply (Hfresh k'); [now right|exact Hin'].
  - contradiction.
Qed.

(** X19.  [results_serializable] keeps, for each strategy, the match lengths
    of the sweep in their order, and under each of them the [avg_time] and
    the [std_dev] of the entry; the raw measurements are left out.  (The keys
    of a dictionary are pairwise distinct.) *)
Theorem X19_results_serializable_keeps_the_summaries (r : results) :
  NoDup (keys (vulnerable r)) ->
  NoDup (keys (secure r)) ->
  keys (fst (results_serializable r)) = keys (vulnerable r)
  /\ keys (snd (results_serializable r)) = keys (secure r)
  /\ (forall k e, dict_get (vulnerable r) k = Ok e ->
        dict_get (fst (results_serializable r)) k = Ok (summary_of e))
  /\ (forall k e, dict_get (secure r) k = Ok e ->
        dict_get (snd (results_serializable r)) k = Ok (summary_of e)).
Proof.
  intros Hv Hs. unfold results_serializable. cbn [fst snd].
  rewrite !serialize_items_fresh by (assumption || (intros k _ [])).
  cbn [app]. unfold keys. rewrite !map_map. cbn [fst].
  split; [reflexivity|]. split; [reflexivity|].
  split; intros k e He; rewrite dict_get_map, He; reflexivity.
Qed.

(** X19 on a sweep of two match lengths and a sweep of one. *)
Lemma X19_results_serializable_keeps_the_summaries_witness :
  let e1 := {| avg_time := 5; std_dev := 1; all_times := [4; 6] |} in
  let e2 := {| avg_time := 7; std_dev := 0; all_times := [7; 7] |} in
  let r := {| vulnerable := [(0, e1); (1, e2)]; secure := [(0, e2)];
              password_length := 1 |} in
  keys (fst (results_serializable r)) = keys (vulnerable r)
  /\ keys (snd (results_serializable r)) = keys (secure r)
  /\ (forall k e, dict_get (vulnerable r) k = Ok e ->
        dict_get (fst (results_serializable r)) k = Ok (summary_of e))
  /\ (forall k e, dict_get (secure r) k = Ok e ->
        dict_get (snd (results_serializable r)) k = Ok (summary_of e)).
Proof.
  cbv zeta. apply X19_results_serializable_keeps_the_summaries.
  - cbn. repeat constructor; cbn; intuition discriminate.
  - cbn. repeat constructor; cbn; intuition discriminate.
Defined.
